(** * tt-license-server: order store, payment webhook and license generator

    A shallow embedding of [server.js].  The Express handlers become
    functions in a small state-and-exception monad over the orders file;
    the JavaScript runtime operations the handlers call (truthiness,
    [parseFloat], template literals, [String.prototype.match],
    [Date.prototype.setMonth], ...) are modelled in module [JS].

    - [JS]: numbers, strings, values, the regular expression, dates.
    - [Server]: the utilities and the routes of [server.js], in its order.
    - [Spec]: the notions of the specification the theorems are stated
      with, and a few concrete worlds.
    - Then the proofs: extraction of the order id, the run of the
      handlers, fulfilment, order creation, the store invariant, the
      calendar, the license key; and, beyond the specification, the
      order store, the routes case by case, the admin routes, the
      outcomes of a request, the way from creation to completion, the
      machine hash and the term of a license, the private key text, the
      shape of the stored orders.

    Left out: logging, the static files, the listing route
    [GET /api/orders] (it only reads the orders file), and the text of
    the e-mail.  Of the start-up code the admin password and the text of
    the private key are modelled, the import of the key is not.  A
    request is handled in one step: the one [await] of a handler, that
    of [sendEmail], comes after its last access to the orders file. *)

From Stdlib Require Import ZArith Ascii String List Bool Lia.
From Stdlib Require Import Floats.SpecFloat.
From stdpp Require Import gmap strings pretty.

Local Open Scope Z_scope.

(** ** The JavaScript runtime, as far as the server uses it *)

Module JS.

(** *** Numbers: IEEE 754 binary64 *)

Definition prec : Z := 53.
Definition emax : Z := 1024.

Abbreviation Number := spec_float.

Definition NaN : Number := S754_nan.
Definition Infinity : Number := S754_infinity false.

(** The relational operators on numbers; every comparison with [NaN] is
    false. *)
Definition lt (x y : Number) : bool := SFltb x y.
Definition ge (x y : Number) : bool := SFleb y x.
Definition eq (x y : Number) : bool := SFeqb x y.

Definition isNaN (x : Number) : bool :=
  match x with S754_nan => true | _ => false end.

(** The number nearest to the integer [z]. *)
Definition ofZ (z : Z) : Number := binary_normalize prec emax z 0 false.

(** The number nearest to [(-1)^s * m * 10^e], rounding to nearest, ties
    to even. *)
Definition ofDecimal (s : bool) (m : N) (e : Z) : Number :=
  match m with
  | N0 => S754_zero s
  | Npos p =>
      if 0 <=? e
      then binary_normalize prec emax
             ((if s then Z.opp else id) (Zpos p * 10 ^ e)) 0 false
      else SFdiv prec emax (S754_finite s p 0)
             (S754_finite false (Z.to_pos (10 ^ (- e))) 0)
  end.

(** *** Strings

    A string is the sequence of its code units.  The model is that of
    the strings of ASCII characters ([isASCII]): on these a character is
    one code unit, and [toUpperCase] and [substring0] below are those of
    JavaScript.  Outside the ASCII range [String.prototype.toUpperCase]
    follows the Unicode case mapping (one character may become two) and
    [substring] counts UTF-16 code units; neither is modelled. *)

Fixpoint isASCII (s : string) : bool :=
  match s with
  | EmptyString => true
  | String c s' => (nat_of_ascii c <? 128)%nat && isASCII s'
  end.

Definition isDigit (c : ascii) : bool :=
  (48 <=? nat_of_ascii c)%nat && (nat_of_ascii c <=? 57)%nat.

Definition digitValue (c : ascii) : N := N_of_ascii c - 48.

Definition isWhiteSpace (c : ascii) : bool :=
  let n := nat_of_ascii c in
  ((9 <=? n)%nat && (n <=? 13)%nat) || (n =? 32)%nat.

Definition upperChar (c : ascii) : ascii :=
  let n := nat_of_ascii c in
  if (97 <=? n)%nat && (n <=? 122)%nat then ascii_of_nat (n - 32) else c.

Fixpoint toUpperCase (s : string) : string :=
  match s with
  | EmptyString => EmptyString
  | String c s' => String (upperChar c) (toUpperCase s')
  end.

(** [s.substring(0, n)]: the first [n] code units, or all of [s] when it
    is shorter (for an ASCII string, its first [n] characters). *)
Definition substring0 (n : nat) (s : string) : string := String.substring 0 n s.

(** [n] zeros. *)
Fixpoint zeros (n : nat) : string :=
  match n with
  | O => EmptyString
  | S n' => String "0" (zeros n')
  end.

(** [s.padStart(n, '0')]. *)
Definition padStart0 (n : nat) (s : string) : string :=
  zeros (n - String.length s) +:+ s.

Fixpoint isPrefix (p s : string) : option string :=
  match p with
  | EmptyString => Some s
  | String a p' =>
      match s with
      | EmptyString => None
      | String b s' => if Ascii.eqb a b then isPrefix p' s' else None
      end
  end.

(** *** Numeric literals in strings ([StringNumericValue]) *)

(** The longest run of decimal digits at the start of [s]: the value read
    (continuing from [acc]), the number of digits, and the rest. *)
Fixpoint digits (s : string) (acc : N) (n : nat) : N * nat * string :=
  match s with
  | EmptyString => (acc, n, s)
  | String c s' =>
      if isDigit c then digits s' (acc * 10 + digitValue c)%N (S n)
      else (acc, n, s)
  end.

Fixpoint trimStart (s : string) : string :=
  match s with
  | String c s' => if isWhiteSpace c then trimStart s' else s
  | EmptyString => s
  end.

Definition signOf (s : string) : bool * string :=
  match s with
  | String "+" s' => (false, s')
  | String "-" s' => (true, s')
  | _ => (false, s)
  end.

(** The value of the [ExponentPart] that [s] starts with, and 0 when it
    starts with none ([e] or [E], an optional sign, at least one digit). *)
Definition exponentPart (s : string) : Z :=
  match s with
  | String c s' =>
      if Ascii.eqb c "e" || Ascii.eqb c "E" then
        let '(sg, s'') := signOf s' in
        let '(v, n, _) := digits s'' 0 0 in
        if (n =? 0)%nat then 0 else if sg then - Z.of_N v else Z.of_N v
      else 0
  | EmptyString => 0
  end.

(** The number denoted by the longest prefix of [s] that is a
    [StrUnsignedDecimalLiteral], [NaN] when there is none. *)
Definition unsignedLiteral (sg : bool) (s : string) : Number :=
  match isPrefix "Infinity" s with
  | Some _ => S754_infinity sg
  | None =>
      let '(i, ni, s1) := digits s 0 0 in
      match s1 with
      | String "." s2 =>
          let '(f, nf, s3) := digits s2 i 0 in
          if (ni =? 0)%nat && (nf =? 0)%nat then NaN
          else ofDecimal sg f (exponentPart s3 - Z.of_nat nf)
      | _ => if (ni =? 0)%nat then NaN else ofDecimal sg i (exponentPart s1)
      end
  end.

(** [parseFloat] applied to a string. *)
Definition parseFloatString (s : string) : Number :=
  let '(sg, s') := signOf (trimStart s) in unsignedLiteral sg s'.

(** *** [Number::toString] *)

(** [true] when [num / den < 10 ^ n], for positive [den]. *)
Definition belowPow10 (num den n : Z) : bool :=
  if 0 <=? n then num <? den * 10 ^ n else num * 10 ^ (- n) <? den.

(** The least [n >= lo] with [num / den < 10 ^ n]. *)
Fixpoint magnitude (fuel : nat) (num den lo : Z) : Z :=
  match fuel with
  | O => lo
  | S f => if belowPow10 num den lo then lo else magnitude f num den (lo + 1)
  end.

(** A lower bound of the decimal exponent of [num / den], from the binary
    one: [log10 2] lies between 0.30102 and 0.30103. *)
Definition magnitudeFrom (num den : Z) : Z :=
  let k := Z.log2 num - Z.log2 den - 1 in
  Z.min (k * 30102 / 100000) (k * 30103 / 100000).

Definition sameNumber (x y : Number) : bool :=
  match SFcompare x y with Some Eq => true | _ => false end.

(** [num / den / 10 ^ p] as a fraction of integers. *)
Definition scaled (num den p : Z) : Z * Z :=
  if 0 <=? p then (num, den * 10 ^ p) else (num * 10 ^ (- p), den).

(** The digits [s] with [k] places and the exponent [n] such that
    [s * 10 ^ (n - k)] reads back as [x], for the given [k], if any; of
    two candidates the one nearer to [x]. *)
Definition digitsAt (x : Number) (num den n k : Z) : option (Z * Z) :=
  let p := n - k in
  let '(X, D) := scaled num den p in
  let lo := X / D in
  let r := X mod D in
  let okLo := sameNumber (ofDecimal false (Z.to_N lo) p) x in
  let okHi := sameNumber (ofDecimal false (Z.to_N (lo + 1)) p) x in
  let preferLo := (2 * r <? D) || ((2 * r =? D) && Z.even lo) in
  let pick (s : Z) := if s =? 10 ^ k then (10 ^ (k - 1), n + 1) else (s, n) in
  if okLo && (preferLo || negb okHi) then Some (pick lo)
  else if okHi then Some (pick (lo + 1))
  else None.

Fixpoint shortest (fuel : nat) (x : Number) (num den n k : Z) : Z * Z * Z :=
  match fuel with
  | O => let '(X, D) := scaled num den (n - k) in (X / D, n, k)
  | S f =>
      match digitsAt x num den n k with
      | Some (s, n') => (s, n', k)
      | None => shortest f x num den n (k + 1)
      end
  end.

Definition layout (s n k : Z) : string :=
  let ds := pretty s in
  if (k <=? n) && (n <=? 21) then ds +:+ zeros (Z.to_nat (n - k))
  else if (0 <? n) && (n <=? 21) then
    String.substring 0 (Z.to_nat n) ds +:+ "." +:+
    String.substring (Z.to_nat n) (Z.to_nat (k - n)) ds
  else if (-6 <? n) && (n <=? 0) then "0." +:+ zeros (Z.to_nat (- n)) +:+ ds
  else
    let e := n - 1 in
    let es := (if 0 <=? e then "+" else "-") +:+ pretty (Z.abs e) in
    if k =? 1 then ds +:+ "e" +:+ es
    else String.substring 0 1 ds +:+ "." +:+
         String.substring 1 (Z.to_nat (k - 1)) ds +:+ "e" +:+ es.

Definition NumberToString (x : Number) : string :=
  match x with
  | S754_nan => "NaN"
  | S754_zero _ => "0"
  | S754_infinity s => if s then "-Infinity" else "Infinity"
  | S754_finite sg m e =>
      let num := if 0 <=? e then Zpos m * 2 ^ e else Zpos m in
      let den := if 0 <=? e then 1 else 2 ^ (- e) in
      let n := magnitude 8 num den (magnitudeFrom num den) in
      let '(s, n', k) := shortest 17 (S754_finite false m e) num den n 1 in
      (if sg then "-" else "") +:+ layout s n' k
  end.

(** *** Values

    The values a JSON request body can hold, and [undefined] for a missing
    property.  Arrays and plain objects are kept opaque: [Object r] is one
    whose conversion to a string gives [r]. *)

Inductive Value :=
| Undefined
| Null
| Bool (b : bool)
| Num (n : Number)
| Str (s : string)
| Object (repr : string).

Definition ToBoolean (v : Value) : bool :=
  match v with
  | Undefined | Null => false
  | Bool b => b
  | Num (S754_zero _) | Num S754_nan => false
  | Num _ => true
  | Str s => negb (String.eqb s "")
  | Object _ => true
  end.

Definition ToString (v : Value) : string :=
  match v with
  | Undefined => "undefined"
  | Null => "null"
  | Bool b => if b then "true" else "false"
  | Num n => NumberToString n
  | Str s => s
  | Object r => r
  end.

(** [v === s] for a string literal [s]. *)
Definition strictEqStr (v : Value) (s : string) : bool :=
  match v with
  | Str s' => String.eqb s' s
  | _ => false
  end.

Definition parseFloat (v : Value) : Number := parseFloatString (ToString v).

(** *** Regular expressions

    The fragment the server needs: a sequence of single-character atoms,
    each with a repetition count. *)

Inductive Atom :=
| Lit (c : ascii)      (* a literal character *)
| Digit.               (* \d *)

Definition RegExp := list (Atom * nat).

Definition accepts (a : Atom) (c : ascii) : bool :=
  match a with
  | Lit l => Ascii.eqb l c
  | Digit => isDigit c
  end.

Definition atoms (r : RegExp) : list Atom :=
  flat_map (fun an => repeat (fst an) (snd an)) r.

(** Match the atoms at the start of [s]; the result is the matched text. *)
Fixpoint matchHere (p : list Atom) (s : string) : option string :=
  match p with
  | [] => Some EmptyString
  | a :: p' =>
      match s with
      | EmptyString => None
      | String c s' =>
          if accepts a c then String c <$> matchHere p' s' else None
      end
  end.

(** Try each start position from the left. *)
Fixpoint search (p : list Atom) (s : string) : option string :=
  match matchHere p s with
  | Some m => Some m
  | None =>
      match s with
      | EmptyString => None
      | String _ s' => search p s'
      end
  end.

(** [s.match(r)] for a regular expression without the global flag:
    [Some m] stands for the result array, whose element 0 is [m], and
    [None] for [null]. *)
Definition match_ (s : string) (r : RegExp) : option string :=
  search (atoms r) s.

(** *** Dates

    A [Date] is modelled by its time value in local time (milliseconds
    since the epoch); the methods used here read and write local fields
    only.  The conversion between local time and UTC and the range check
    of [TimeClip] are not modelled. *)

Definition msPerDay : Z := 86400000.

Definition Day (t : Z) : Z := t / msPerDay.
Definition TimeWithinDay (t : Z) : Z := t mod msPerDay.

(** Day number of the civil date [y]-[m]-[d] (months 1..12), counted from
    1970-01-01, in the proleptic Gregorian calendar. *)
Definition daysFromCivil (y m d : Z) : Z :=
  let y' := if m <=? 2 then y - 1 else y in
  let era := y' / 400 in
  let yoe := y' - era * 400 in
  let mp := if 2 <? m then m - 3 else m + 9 in
  let doy := (153 * mp + 2) / 5 + d - 1 in
  let doe := yoe * 365 + yoe / 4 - yoe / 100 + doy in
  era * 146097 + doe - 719468.

(** The civil date (year, month 1..12, day) of a day number. *)
Definition civilFromDays (z : Z) : Z * Z * Z :=
  let z := z + 719468 in
  let era := z / 146097 in
  let doe := z - era * 146097 in
  let yoe := (doe - doe / 1460 + doe / 36524 - doe / 146096) / 365 in
  let doy := doe - (365 * yoe + yoe / 4 - yoe / 100) in
  let mp := (5 * doy + 2) / 153 in
  let d := doy - (153 * mp + 2) / 5 + 1 in
  let m := if mp <? 10 then mp + 3 else mp - 9 in
  (yoe + era * 400 + (if m <=? 2 then 1 else 0), m, d).

Record Date := { localTime : Z }.

Definition getFullYear (d : Date) : Z := (civilFromDays (Day (localTime d))).1.1.
Definition getMonth (d : Date) : Z := (civilFromDays (Day (localTime d))).1.2 - 1.
Definition getDate (d : Date) : Z := (civilFromDays (Day (localTime d))).2.

(** [MakeDay]: months beyond 0..11 carry into the year, and the day of
    the month is counted on from the first of that month, so that it may
    run over into the following month. *)
Definition MakeDay (year month date : Z) : Z :=
  daysFromCivil (year + month / 12) (month mod 12 + 1) 1 + date - 1.

Definition MakeDate (day time : Z) : Z := day * msPerDay + time.

Definition setMonth (d : Date) (month : Z) : Date :=
  {| localTime := MakeDate (MakeDay (getFullYear d) month (getDate d))
                           (TimeWithinDay (localTime d)) |}.

Definition setFullYear (d : Date) (year : Z) : Date :=
  {| localTime := MakeDate (MakeDay year (getMonth d) (getDate d))
                           (TimeWithinDay (localTime d)) |}.

(** The date object for local midnight of a civil date. *)
Definition dateOf (y m d : Z) : Date :=
  {| localTime := MakeDate (daysFromCivil y m d) 0 |}.

(** *** Replacement of escaped line breaks

    [s.replace(/\\n/g, '\n')]: every occurrence of a backslash followed
    by the letter n, found from the left and without overlap, is replaced
    by a line feed. *)
Fixpoint replaceEscapedNewlines (s : string) : string :=
  match s with
  | String "\" (String "n" s') => String "010" (replaceEscapedNewlines s')
  | String c s' => String c (replaceEscapedNewlines s')
  | EmptyString => EmptyString
  end.

End JS.

(** ** The server *)

Module Server.
Import JS.

(** *** Data

    A plain object is a finite map from property names to values; the
    orders file holds one object per order id. *)

Abbreviation Obj := (gmap string Value).
Abbreviation DB := (gmap string Obj).

(** Property read [o.k]: [undefined] when [o] has no such property. *)
Definition prop (o : Obj) (k : string) : Value := default Undefined (o !! k).

(** The private key object; [sign p] stands for
    [privateKey.sign(p, 'base64', 'utf8')]. *)
Record NodeRSA := { sign : string -> string }.

(** What the call of the mail provider's HTTP API comes to. *)
Inductive FetchResult := ResponseOk | ResponseNotOk | NetworkError.

(** Calls recorded for the proofs: they are no part of the server's state. *)
Inductive Event :=
| Generate (machineId type : Value)
| WriteFile (db : DB)
| SendEmail (to : Value) (licenseKey orderId : string).

(** Everything a handler can read or change: the orders file ([None] as
    long as it does not exist), the calls made so far, the configuration
    taken from the process environment, and what the clock, the random
    generator and the network answer while the request is handled. *)
Record World := {
  file : option DB;
  trace : list Event;
  privateKey : option NodeRSA;
  EMAIL_PASS : option string;
  ADMIN_PASS : string;
  clock : Date;            (* new Date() *)
  clockISO : string;       (* new Date().toISOString() *)
  random : Z;              (* Math.floor(1000 + Math.random() * 9000) *)
  fetchResult : FetchResult
}.

Definition setFile (db : DB) (w : World) : World :=
  {| file := Some db; trace := trace w; privateKey := privateKey w;
     EMAIL_PASS := EMAIL_PASS w; ADMIN_PASS := ADMIN_PASS w; clock := clock w;
     clockISO := clockISO w; random := random w; fetchResult := fetchResult w |}.

Definition record (e : Event) (w : World) : World :=
  {| file := file w; trace := trace w ++ [e]; privateKey := privateKey w;
     EMAIL_PASS := EMAIL_PASS w; ADMIN_PASS := ADMIN_PASS w; clock := clock w;
     clockISO := clockISO w; random := random w; fetchResult := fetchResult w |}.

(** The process environment, a map from names to strings, and
    [process.env.NAME || fallback]: the fallback is taken when the
    variable is not set or is empty. *)
Abbreviation Env := (gmap string string).

Definition envOr (env : Env) (name fallback : string) : string :=
  match env !! name with
  | Some s => if String.eqb s "" then fallback else s
  | None => fallback
  end.

(** [const ADMIN_PASS = process.env.ADMIN_PASS || 'admin123']. *)
Definition adminPassOf (env : Env) : string := envOr env "ADMIN_PASS" "admin123".

(** The text of the private key handed to [NodeRSA] at start-up: that of
    the variable [PRIVATE_KEY] when it is set and not empty, its escaped
    line breaks replaced, and else the content of [keys/private.pem], if
    that file exists. *)
Definition privateKeyText (env : Env) (pem : option string) : option string :=
  match env !! "PRIVATE_KEY" with
  | Some (String c s) => Some (replaceEscapedNewlines (String c s))
  | _ => pem
  end.

(** *** Control: state and exceptions *)

Inductive Exn := Error (msg : string) | TypeError.

Inductive Result (A : Type) :=
| Return (a : A)
| Throw (e : Exn).
Arguments Return {A} a.
Arguments Throw {A} e.

Definition M (A : Type) : Type := World -> Result A * World.

Definition ret {A} (a : A) : M A := fun w => (Return a, w).

Definition bind {A B} (c : M A) (k : A -> M B) : M B :=
  fun w =>
    match c w with
    | (Return a, w') => k a w'
    | (Throw e, w') => (Throw e, w')
    end.

Definition throw {A} (e : Exn) : M A := fun w => (Throw e, w).

Definition try {A} (c : M A) (catch : Exn -> M A) : M A :=
  fun w =>
    match c w with
    | (Return a, w') => (Return a, w')
    | (Throw e, w') => catch e w'
    end.

Definition read {A} (f : World -> A) : M A := fun w => (Return (f w), w).

Definition emit (e : Event) : M unit := fun w => (Return tt, record e w).

Notation "x <~ c ;; k" := (bind c (fun x => k))
  (at level 100, c at next level, right associativity).
Notation "c ;;; k" := (bind c (fun _ => k))
  (at level 100, right associativity).

(** [fs.writeFileSync(targetFile, JSON.stringify(db, null, 2))]; reading
    the file back with [JSON.parse] gives [db] again, the values in it
    being JSON values. *)
Definition writeFileSync (db : DB) : M unit :=
  fun w => (Return tt, setFile db (record (WriteFile db) w)).

(** *** Utils *)

Definition saveOrder (orderId : string) (data : Obj) : M unit :=
  f <~ read file ;;
  let db := default ∅ f in
  createdAt <~ read clockISO ;;
  writeFileSync
    (<[orderId := <["createdAt" := Str createdAt]>
                    (<["status" := Str "PENDING"]> data)]> db).

(** [None] stands for both [null] (no file) and [undefined] (no such
    order); property names inherited from [Object.prototype] are not
    modelled. *)
Definition getOrder (orderId : string) : M (option Obj) :=
  f <~ read file ;;
  ret (match f with Some db => db !! orderId | None => None end).

Definition updateOrderStatus (orderId status : string) (extraData : Obj) : M unit :=
  f <~ read file ;;
  match f with
  | Some db =>
      match db !! orderId with
      | Some o =>
          updatedAt <~ read clockISO ;;
          writeFileSync
            (<[orderId := <["updatedAt" := Str updatedAt]>
                            (extraData ∪ <["status" := Str status]> o)]> db)
      | None => ret tt
      end
  | None => ret tt
  end.

(** [yyyy], [mm] and [dd] of a date, joined. *)
Definition yyyymmdd (now : Date) : string :=
  let yyyy := getFullYear now in
  let mm := padStart0 2 (pretty (getMonth now + 1)) in
  let dd := padStart0 2 (pretty (getDate now)) in
  pretty yyyy +:+ mm +:+ dd.

Definition generateLicense (machineId type : Value) : M string :=
  emit (Generate machineId type) ;;;
  key <~ read privateKey ;;
  match key with
  | None => throw (Error "Private Key not configured!")
  | Some privateKey =>
      match machineId with
      | Str id =>
          let machineHash := toUpperCase (substring0 8 id) in
          now <~ read clock ;;
          let '(now, expiry) :=
            if strictEqStr type "M" then (setMonth now (getMonth now + 1), "")
            else if strictEqStr type "Y"
                 then (setFullYear now (getFullYear now + 1), "")
            else if strictEqStr type "P" then (now, "FOREVER")
            else (now, "") in
          let expiry :=
            if negb (strictEqStr type "P") then yyyymmdd now else expiry in
          let payload := ToString type +:+ "-" +:+ machineHash +:+ "-" +:+ expiry in
          let signature := sign privateKey payload in
          ret (payload +:+ "-" +:+ signature)
      | _ => throw TypeError      (* machineId.substring is not a function *)
      end
  end.

Definition sendEmail (to : Value) (licenseKey orderId : string) : M bool :=
  emit (SendEmail to licenseKey orderId) ;;;
  apiKey <~ read EMAIL_PASS ;;
  match apiKey with
  | None | Some "" => ret false
  | Some _ =>
      response <~ read fetchResult ;;
      ret (match response with ResponseOk => true | _ => false end)
  end.

(** *** Routes *)

Record Response := { status : Z; json : Obj }.

Definition reply (code : Z) (body : Obj) : M Response :=
  ret {| status := code; json := body |}.

(** The regular expression [/TT\d{4}/]. *)
Definition orderCode : RegExp := [(Lit "T", 1%nat); (Lit "T", 1%nat); (Digit, 4%nat)].

(** [POST /create-order].  The literal parts of the [message] are given
    by their UTF-8 bytes. *)
Definition create_order (machineId email type amount : Value) : M Response :=
  if negb (ToBoolean machineId) || negb (ToBoolean email)
     || negb (ToBoolean type) || negb (ToBoolean amount)
  then reply 400 {[ "error" := Str "Missing required fields" ]}
  else
    n <~ read random ;;
    let orderId := "TT" +:+ pretty n in
    saveOrder orderId
      (<["machineId" := machineId]> (<["email" := email]>
        (<["type" := type]> {[ "amount" := amount ]}))) ;;;
    reply 200
      (<["success" := Bool true]> (<["orderId" := Str orderId]>
        {[ "message" := Str ("Vui lòng chuyển khoản " +:+ ToString amount +:+
                             "đ với nội dung: " +:+ orderId) ]})).

(** [POST /webhook/sepay]. *)
Definition webhook_sepay (content amount : Value) : M Response :=
  try
    match content with
    | Str content =>
        match match_ content orderCode with
        | None =>
            reply 200 (<["success" := Bool false]>
                         {[ "message" := Str "No order code found" ]})
        | Some orderId =>
            order <~ getOrder orderId ;;
            match order with
            | None =>
                reply 200 (<["success" := Bool false]>
                             {[ "message" := Str "Order not found" ]})
            | Some order =>
                if strictEqStr (prop order "status") "COMPLETED" then
                  reply 200 (<["success" := Bool true]>
                               {[ "message" := Str "Order already completed" ]})
                else if lt (parseFloat amount) (parseFloat (prop order "amount")) then
                  reply 200 (<["success" := Bool false]>
                               {[ "message" := Str "Insufficient amount" ]})
                else
                  licenseKey <~ generateLicense (prop order "machineId")
                                                (prop order "type") ;;
                  updateOrderStatus orderId "COMPLETED"
                    {[ "licenseKey" := Str licenseKey ]} ;;;
                  emailSent <~ sendEmail (prop order "email") licenseKey orderId ;;
                  reply 200 (<["success" := Bool true]>
                               {[ "emailSent" := Bool emailSent ]})
            end
        end
    | _ => throw TypeError        (* content.match is not a function *)
    end
    (fun _ => reply 500 {[ "error" := Str "Internal Server Error" ]}).

(** The admin middleware: the [x-admin-pass] header against [ADMIN_PASS]. *)
Definition checkAdmin (pass : option string) (next : M Response) : M Response :=
  expected <~ read ADMIN_PASS ;;
  match pass with
  | Some p =>
      if String.eqb p expected then next
      else reply 401 (<["success" := Bool false]> {[ "message" := Str "Unauthorized" ]})
  | None => reply 401 (<["success" := Bool false]> {[ "message" := Str "Unauthorized" ]})
  end.

(** [POST /api/approve].  [orderId] is used as a property name and in a
    template literal only, that is, through its conversion to a string. *)
Definition api_approve (pass : option string) (orderId : Value) : M Response :=
  checkAdmin pass
    (let orderId := ToString orderId in
     order <~ getOrder orderId ;;
     match order with
     | None =>
         reply 404 (<["success" := Bool false]>
                      {[ "message" := Str "Order not found" ]})
     | Some order =>
         if strictEqStr (prop order "status") "COMPLETED" then
           reply 200 (<["success" := Bool false]>
                        {[ "message" := Str "Order already completed" ]})
         else
           try
             (licenseKey <~ generateLicense (prop order "machineId")
                                            (prop order "type") ;;
              updateOrderStatus orderId "COMPLETED"
                {[ "licenseKey" := Str licenseKey ]} ;;;
              emailSent <~ sendEmail (prop order "email") licenseKey orderId ;;
              reply 200 (<["success" := Bool true]>
                           {[ "emailSent" := Bool emailSent ]}))
             (fun _ =>
                reply 500 (<["success" := Bool false]>
                             {[ "message" := Str "Internal Error" ]}))
     end).

(** [DELETE /api/orders/:id]. *)
Definition api_orders_delete (pass : option string) (orderId : string) : M Response :=
  checkAdmin pass
    (f <~ read file ;;
     match f with
     | Some db =>
         match db !! orderId with
         | Some _ =>
             writeFileSync (delete orderId db) ;;;
             reply 200 {[ "success" := Bool true ]}
         | None =>
             reply 404 (<["success" := Bool false]> {[ "message" := Str "Not found" ]})
         end
     | None =>
         reply 404 (<["success" := Bool false]> {[ "message" := Str "Not found" ]})
     end).

(** *** The request body

    [req.body] is the object parsed from the request, or [undefined]
    when the request came without a body and the body parser left it
    unset; reading fields off [undefined] throws a [TypeError].  The
    webhook reads them inside its [try]; order creation and the admin
    approval read them outside any, the approval after [checkAdmin] has
    let the request pass. *)
Definition post_create_order (body : option Obj) : M Response :=
  match body with
  | Some b =>
      create_order (prop b "machineId") (prop b "email") (prop b "type")
        (prop b "amount")
  | None => throw TypeError
  end.

Definition post_webhook_sepay (body : option Obj) : M Response :=
  match body with
  | Some b => webhook_sepay (prop b "content") (prop b "amount")
  | None =>
      try (throw TypeError)
        (fun _ => reply 500 {[ "error" := Str "Internal Server Error" ]})
  end.

Definition post_api_approve (pass : option string) (body : option Obj) : M Response :=
  match body with
  | Some b => api_approve pass (prop b "orderId")
  | None => checkAdmin pass (throw TypeError)
  end.

End Server.

(** ** Specification-side notions *)

Module Spec.
Import JS Server.

(** An order code: [TT] followed by exactly four decimal digits. *)
Definition isOrderCode (s : string) : Prop :=
  ∃ a b c d,
    s = String "T" (String "T" (String a (String b (String c (String d "")))))
    ∧ isDigit a = true ∧ isDigit b = true ∧ isDigit c = true ∧ isDigit d = true.

(** [code] occurs in [content] at offset [i]. *)
Definition occursAt (code content : string) (i : nat) : Prop :=
  ∃ pre post, content = pre +:+ code +:+ post ∧ String.length pre = i.

(** *** The calendar

    Dates as year, month (1..12) and day of the month. *)

Definition isLeapYear (y : Z) : bool :=
  (y mod 4 =? 0) && (negb (y mod 100 =? 0) || (y mod 400 =? 0)).

Definition daysInMonth (y m : Z) : Z :=
  if m =? 2 then (if isLeapYear y then 29 else 28)
  else if (m =? 4) || (m =? 6) || (m =? 9) || (m =? 11) then 30 else 31.

Definition validDate (y m d : Z) : Prop :=
  1 ≤ m ≤ 12 ∧ 1 ≤ d ≤ daysInMonth y m.

Definition nextMonth (y m : Z) : Z * Z :=
  if m =? 12 then (y + 1, 1) else (y, m + 1).

(** In the words of the specification: the current date "plus one
    calendar month" is the same day of the following month, and "plus
    one calendar year" the same month and day of the following year
    ([<YYYY+1><MM><DD>]).  Where the month so named has no such day, the
    nearest reading is its last day ([clampDay]). *)
Definition plusOneMonth (c : Z * Z * Z) : Z * Z * Z :=
  let '(y, m, d) := c in (nextMonth y m, d).

Definition plusOneYear (c : Z * Z * Z) : Z * Z * Z :=
  let '(y, m, d) := c in (y + 1, m, d).

Definition clampDay (c : Z * Z * Z) : Z * Z * Z :=
  let '(y, m, d) := c in (y, m, Z.min d (daysInMonth y m)).

(** What the code computes, in calendar terms: [Date.setMonth] and
    [Date.setFullYear] count a day that the month does not have on into
    the month after it (31 January plus a month is 3 March, or 2 March
    in a leap year). *)
Definition rollOver (y m d : Z) : Z * Z * Z :=
  if d <=? daysInMonth y m then (y, m, d)
  else (nextMonth y m, d - daysInMonth y m).

Definition afterSetMonth (c : Z * Z * Z) : Z * Z * Z :=
  let '(y, m, d) := c in
  let '(y', m') := nextMonth y m in rollOver y' m' d.

Definition afterSetFullYear (c : Z * Z * Z) : Z * Z * Z :=
  let '(y, m, d) := c in rollOver (y + 1) m d.

(** The civil date a [Date] object stands for. *)
Definition civilDate (now : Date) : Z * Z * Z :=
  (getFullYear now, getMonth now + 1, getDate now).

(** [YYYYMMDD]. *)
Definition formatDate (c : Z * Z * Z) : string :=
  let '(y, m, d) := c in
  pretty y +:+ padStart0 2 (pretty m) +:+ padStart0 2 (pretty d).

(** The entitlement types and their codes. *)
Inductive LicenseType := Monthly | Yearly | Perpetual.

Definition typeCode (t : LicenseType) : string :=
  match t with Monthly => "M" | Yearly => "Y" | Perpetual => "P" end.

(** The date a license of type [t] issued [today] expires, if it does,
    as the specification names it. *)
Definition expiryDate (t : LicenseType) (today : Z * Z * Z) : option (Z * Z * Z) :=
  match t with
  | Monthly => Some (plusOneMonth today)
  | Yearly => Some (plusOneYear today)
  | Perpetual => None
  end.

Definition expiryOf (t : LicenseType) (today : Z * Z * Z) : string :=
  match expiryDate t today with
  | Some c => formatDate c
  | None => "FOREVER"
  end.

(** The comparison the specification asks of the amount check. *)
Definition amountSatisfies (paid required : Number) : bool := ge paid required.

(** The steps both the webhook and the admin approval run for an order
    that is not completed yet. *)
Definition fulfilment (orderId : string) (order : Obj) : M Response :=
  licenseKey <~ generateLicense (prop order "machineId") (prop order "type") ;;
  updateOrderStatus orderId "COMPLETED" {[ "licenseKey" := Str licenseKey ]} ;;;
  emailSent <~ sendEmail (prop order "email") licenseKey orderId ;;
  reply 200 (<["success" := Bool true]> {[ "emailSent" := Bool emailSent ]}).

(** The key [generateLicense] hands out in world [w], when it hands out
    one. *)
Definition issued (w : World) (machineId type : Value) : string :=
  match (generateLicense machineId type w).1 with
  | Return k => k
  | Throw _ => ""
  end.

(** The order record after [updateOrderStatus] has completed it. *)
Definition completedOrder (o : Obj) (licenseKey updatedAt : string) : Obj :=
  <["updatedAt" := Str updatedAt]>
    ({[ "licenseKey" := Str licenseKey ]} ∪ <["status" := Str "COMPLETED"]> o).

(** The world after the fulfilment of order [orderId], found as [o] in
    [db]. *)
Definition fulfilled (w : World) (db : DB) (orderId : string) (o : Obj) : World :=
  let k := issued w (prop o "machineId") (prop o "type") in
  let db' := <[orderId := completedOrder o k (clockISO w)]> db in
  record (SendEmail (prop o "email") k orderId)
    (setFile db' (record (WriteFile db')
       (record (Generate (prop o "machineId") (prop o "type")) w))).

(** The answers with a [message]. *)
Definition answer (code : Z) (success : bool) (message : string) : Response :=
  {| status := code;
     json := <["success" := Bool success]> {[ "message" := Str message ]} |}.

Definition internalError : Exn → M Response :=
  fun _ => reply 500 {[ "error" := Str "Internal Server Error" ]}.

Definition internalErrorAdmin : Exn → M Response :=
  fun _ => reply 500 (<["success" := Bool false]> {[ "message" := Str "Internal Error" ]}).

(** The answer to a request that created the order [orderId]. *)
Definition orderCreated (amount : Value) (orderId : string) : Response :=
  {| status := 200;
     json := <["success" := Bool true]> (<["orderId" := Str orderId]>
               {[ "message" := Str ("Vui lòng chuyển khoản " +:+ ToString amount +:+
                                    "đ với nội dung: " +:+ orderId) ]}) |}.

(** The order record [saveOrder] writes for a request. *)
Definition pendingOrder (machineId email type amount : Value) (createdAt : string) : Obj :=
  <["createdAt" := Str createdAt]>
    (<["status" := Str "PENDING"]>
      (<["machineId" := machineId]> (<["email" := email]>
        (<["type" := type]> {[ "amount" := amount ]})))).

(** What the claim of an idempotent answer asks of a response for an
    order [o]: success, and the stored license key. *)
Definition returnsStoredKey (o : Obj) (r : Result Response) : Prop :=
  ∃ resp, r = Return resp
    ∧ json resp !! "success" = Some (Bool true)
    ∧ json resp !! "licenseKey" = o !! "licenseKey".

(** The partial success: fulfilled, but not notified. *)
Definition partialSuccess : Response :=
  {| status := 200;
     json := <["success" := Bool true]> {[ "emailSent" := Bool false ]} |}.

(** A key object, a freshly started server, the same after one order has
    been created, and after that order has been paid. *)
Definition demoKey : NodeRSA := {| sign := fun payload => "SIG(" +:+ payload +:+ ")" |}.

Definition demoWorld : World :=
  {| file := None; trace := []; privateKey := Some demoKey;
     EMAIL_PASS := Some "api-key"; ADMIN_PASS := "admin123";
     clock := dateOf 2024 1 31; clockISO := "2024-01-31T09:00:00.000Z";
     random := 1234; fetchResult := ResponseOk |}.

Definition demoPending : World :=
  (create_order (Str "abcdefgh1234") (Str "buyer@example.com") (Str "M")
     (Num (ofZ 200000)) demoWorld).2.

Definition demoCompleted : World :=
  (webhook_sepay (Str "CK TT1234") (Num (ofZ 200000)) demoPending).2.

(** A freshly started server on 15 June 2024, and on 29 February 2024. *)
Definition demoJune : World :=
  {| file := None; trace := []; privateKey := Some demoKey;
     EMAIL_PASS := Some "api-key"; ADMIN_PASS := "admin123";
     clock := dateOf 2024 6 15; clockISO := "2024-06-15T09:00:00.000Z";
     random := 1234; fetchResult := ResponseOk |}.

Definition demoLeapDay : World :=
  {| file := None; trace := []; privateKey := Some demoKey;
     EMAIL_PASS := Some "api-key"; ADMIN_PASS := "admin123";
     clock := dateOf 2024 2 29; clockISO := "2024-02-29T09:00:00.000Z";
     random := 1234; fetchResult := ResponseOk |}.

(** The server with one pending order and a mail provider out of reach. *)
Definition demoOffline : World :=
  {| file := file demoPending; trace := []; privateKey := Some demoKey;
     EMAIL_PASS := Some "api-key"; ADMIN_PASS := "admin123";
     clock := dateOf 2024 1 31; clockISO := "2024-01-31T09:05:00.000Z";
     random := 1234; fetchResult := NetworkError |}.

(** The orders file and the order [TT1234] of a world. *)
Definition dbOf (w : World) : DB := default ∅ (file w).
Definition orderOf (w : World) : Obj := default ∅ (dbOf w !! "TT1234").

(** The notifier fails: no API key is configured, or the mail provider
    does not answer with success. *)
Definition notifierFails (w : World) : Prop :=
  EMAIL_PASS w = None ∨ EMAIL_PASS w = Some "" ∨ fetchResult w ≠ ResponseOk.

Definition isCompleted (o : Obj) : Prop := o !! "status" = Some (Str "COMPLETED").

(** An order has a license key if and only if it is completed. *)
Definition licenseIffCompleted (o : Obj) : Prop :=
  is_Some (o !! "licenseKey") ↔ isCompleted o.

Definition storeInvariant (w : World) : Prop :=
  ∀ db id o, file w = Some db → db !! id = Some o → licenseIffCompleted o.

(** The operations on the store.  A request carries the fields read
    from its body; the requests that arrive without a body are those of
    [Arrival] below. *)
Inductive Request :=
| CreateOrder (machineId email type amount : Value)
| ReportPayment (content amount : Value)
| ApproveOrder (pass : option string) (orderId : Value)
| DeleteOrder (pass : option string) (orderId : string).

Definition handle (r : Request) : M Response :=
  match r with
  | CreateOrder machineId email type amount => create_order machineId email type amount
  | ReportPayment content amount => webhook_sepay content amount
  | ApproveOrder pass orderId => api_approve pass orderId
  | DeleteOrder pass orderId => api_orders_delete pass orderId
  end.

(** The notifier is called only after the commit: when handling [r] in
    [w] calls [sendEmail], the calls of that request are the license
    generation, the write of the orders file and the e-mail, in this
    order, and the file written, which is the file at the end, holds the
    order as completed with the license key that is sent. *)
Definition notifiedAfterCommit (w : World) (r : Request) : Prop :=
  let w' := (handle r w).2 in
  ∃ calls,
    trace w' = trace w ++ calls
    ∧ ∀ to k id,
        SendEmail to k id ∈ calls →
        ∃ machineId type db' o',
          calls = [Generate machineId type; WriteFile db'; SendEmail to k id]
          ∧ file w' = Some db'
          ∧ db' !! id = Some o'
          ∧ isCompleted o' ∧ o' !! "licenseKey" = Some (Str k).

(** The server starts without an orders file, or with an empty one. *)
Definition initial (w : World) : Prop := file w = None ∨ file w = Some ∅.

(** The worlds the server can get into: requests are handled one after
    the other, and between them everything but the orders file may
    change. *)
Inductive reachable : World → Prop :=
| reach_initial w : initial w → reachable w
| reach_handle w r : reachable w → reachable ((handle r w).2)
| reach_ambient w w' : reachable w → file w' = file w → reachable w'.

(** *** Further notions, for the properties beyond the specification *)

(** The orders file of a world, a missing file counting as an empty one,
    is [dbOf]; the order stored under [id], if any. *)
Definition stored (w : World) (id : string) : option Obj := dbOf w !! id.

(** The property names that every object inherits from
    [Object.prototype].  The model of the store reads and writes own
    properties only (see [getOrder]); it holds for order ids that are
    not among these names. *)
Definition inheritedNames : list string :=
  ["constructor"; "__proto__"; "hasOwnProperty"; "isPrototypeOf";
   "propertyIsEnumerable"; "toLocaleString"; "toString"; "valueOf";
   "__defineGetter__"; "__defineSetter__"; "__lookupGetter__";
   "__lookupSetter__"].

Definition isOwnName (k : string) : bool :=
  negb (existsb (String.eqb k) inheritedNames).

(** The values that come back from the orders file as they were written
    to it: [null], the booleans, the strings, and the finite numbers
    other than -0.  ([JSON.stringify] leaves out a property that is
    [undefined], and writes [null] for NaN and the infinities and 0 for
    -0; arrays and objects are not followed here.) *)
Definition isScalarJSON (v : Value) : bool :=
  match v with
  | Null | Bool _ | Str _ => true
  | Num (S754_finite _ _ _) | Num (S754_zero false) => true
  | _ => false
  end.

Definition scalarFields (o : Obj) : Prop :=
  map_Forall (fun _ v => isScalarJSON v = true) o.

(** A stored order as the routes leave it: the four fields of the
    request that created it are present (truthy), it carries its creation
    time, and it is pending or completed. *)
Definition storedOrderOk (o : Obj) : Prop :=
  ToBoolean (prop o "machineId") = true ∧ ToBoolean (prop o "email") = true
  ∧ ToBoolean (prop o "type") = true ∧ ToBoolean (prop o "amount") = true
  ∧ (∃ ts, o !! "createdAt" = Some (Str ts))
  ∧ (o !! "status" = Some (Str "PENDING") ∨ isCompleted o).

(** The requests that fulfil an order: the payment webhook and the admin
    approval. *)
Definition isFulfilmentRequest (r : Request) : bool :=
  match r with
  | ReportPayment _ _ | ApproveOrder _ _ => true
  | _ => false
  end.

(** The requests whose fields the orders file keeps as they are. *)
Definition scalarRequest (r : Request) : Prop :=
  match r with
  | CreateOrder machineId email type amount =>
      isScalarJSON machineId && isScalarJSON email && isScalarJSON type
      && isScalarJSON amount = true
  | _ => True
  end.

(** The requests as they arrive, with a body or without one. *)
Inductive Arrival :=
| PostCreateOrder (body : option Obj)
| PostWebhook (body : option Obj)
| PostApprove (pass : option string) (body : option Obj)
| DeleteOrders (pass : option string) (orderId : string).

Definition serve (r : Arrival) : M Response :=
  match r with
  | PostCreateOrder body => post_create_order body
  | PostWebhook body => post_webhook_sepay body
  | PostApprove pass body => post_api_approve pass body
  | DeleteOrders pass orderId => api_orders_delete pass orderId
  end.

(** The requests without a body whose fields are read outside a [try]:
    an order creation, and an admin approval with the right password. *)
Definition bodyRead (r : Arrival) (w : World) : Prop :=
  r = PostCreateOrder None ∨ r = PostApprove (Some (ADMIN_PASS w)) None.

(** The properties of an order that its completion sets. *)
Definition setByCompletion (k : string) : Prop :=
  k = "status" ∨ k = "licenseKey" ∨ k = "updatedAt".

(** The status codes of the server's answers. *)
Definition statusOf (r : Result Response) : option Z :=
  match r with Return resp => Some (status resp) | Throw _ => None end.

(** [s] holds a backslash followed by the letter n. *)
Definition hasEscapedNewline (s : string) : Prop :=
  ∃ pre post, s = pre +:+ "\n" +:+ post.

Definition hasBackslash (s : string) : Prop :=
  ∃ pre post, s = pre +:+ "\" +:+ post.

(** No character of [s] is a capital T. *)
Fixpoint noCapitalT (s : string) : bool :=
  match s with
  | EmptyString => true
  | String c s' => negb (Ascii.eqb c "T") && noCapitalT s'
  end.

(** The number of days from the day of [a] to the day of [b]. *)
Definition daysBetween (a b : Date) : Z := Day (localTime b) - Day (localTime a).

(** The server with one pending order and no private key. *)
Definition demoNoKey : World :=
  {| file := file demoPending; trace := []; privateKey := None;
     EMAIL_PASS := Some "api-key"; ADMIN_PASS := "admin123";
     clock := dateOf 2024 1 31; clockISO := "2024-01-31T09:05:00.000Z";
     random := 1234; fetchResult := ResponseOk |}.

(** The server after a request whose machine id is a number, and after
    one whose amount is not the text of a number. *)
Definition demoNumericId : World :=
  (create_order (Num (ofZ 12345)) (Str "buyer@example.com") (Str "M")
     (Num (ofZ 200000)) demoWorld).2.

Definition demoFree : World :=
  (create_order (Str "abcdefgh1234") (Str "buyer@example.com") (Str "M")
     (Str "free") demoWorld).2.

End Spec.

Import JS Server Spec.

(** ** Strings *)

Section Strings.

Lemma str_app_cons c s t : String c s +:+ t = String c (s +:+ t).
Proof. reflexivity. Qed.

Lemma str_app_nil_l s : "" +:+ s = s.
Proof. reflexivity. Qed.

Lemma str_app_nil_r s : s +:+ "" = s.
Proof. induction s as [|c s IH]; [done|]. by rewrite str_app_cons, IH. Qed.

Lemma str_app_assoc s t u : (s +:+ t) +:+ u = s +:+ t +:+ u.
Proof. induction s as [|c s IH]; [done|]. by rewrite !str_app_cons, IH. Qed.

Lemma str_length_app s t :
  String.length (s +:+ t) = (String.length s + String.length t)%nat.
Proof. induction s as [|c s IH]; [done|]. rewrite str_app_cons. simpl. by rewrite IH. Qed.

End Strings.

(** ** The runtime model on examples *)

Example parseFloat_examples :
  parseFloat (Str "200000") = ofZ 200000
  ∧ parseFloat (Num (ofZ 200000)) = ofZ 200000
  ∧ parseFloat (Str "  -12.5e1 VND") = ofZ (-125)
  ∧ parseFloat (Str "abc") = NaN
  ∧ parseFloat (Str "") = NaN
  ∧ parseFloat Undefined = NaN
  ∧ parseFloat Null = NaN
  ∧ parseFloat (Object "200000,1") = ofZ 200000.
Proof. vm_compute. done. Qed.

Example ToString_examples :
  ToString (Num (ofZ 200000)) = "200000"
  ∧ ToString (Num (parseFloatString "0.1")) = "0.1"
  ∧ ToString (Num (parseFloatString "1e21")) = "1e+21"
  ∧ ToString (Num (parseFloatString "123456789012345680000"))
    = "123456789012345680000"
  ∧ ToString (Num (parseFloatString "0.0000001")) = "1e-7"
  ∧ ToString (Num (ofZ (-5))) = "-5"
  ∧ ToString (Num NaN) = "NaN".
Proof. vm_compute. done. Qed.

Example comparison_examples :
  lt (ofZ 199999) (ofZ 200000) = true
  ∧ lt (ofZ 200000) (ofZ 200000) = false
  ∧ lt NaN (ofZ 200000) = false
  ∧ ge NaN (ofZ 200000) = false.
Proof. vm_compute. done. Qed.

Example setMonth_examples :
  civilDate (setMonth (dateOf 2024 1 15) 1) = (2024, 2, 15)
  ∧ civilDate (setMonth (dateOf 2024 12 15) 12) = (2025, 1, 15)
  ∧ civilDate (setMonth (dateOf 2023 1 31) 1) = (2023, 3, 3)
  ∧ civilDate (setFullYear (dateOf 2024 2 29) 2025) = (2025, 3, 1).
Proof. vm_compute. done. Qed.

(** ** Extraction of the order id from the transfer content *)

Section Extraction.

Lemma matchHere_prefix p s m :
  matchHere p s = Some m → ∃ post, s = m +:+ post.
Proof.
  revert s m. induction p as [|a p IH]; intros s m; simpl.
  - intros [= <-]. by exists s.
  - destruct s as [|c s]; [done|].
    destruct (accepts a c); [|done].
    destruct (matchHere p s) as [m'|] eqn:E; [|done].
    intros [= <-]. destruct (IH _ _ E) as [post ->].
    exists post. by rewrite str_app_cons.
Qed.

(** [search] returns the match at the leftmost position that has one. *)
Lemma search_leftmost p s :
  match search p s with
  | Some m =>
      ∃ pre post, s = pre +:+ m +:+ post
        ∧ matchHere p (m +:+ post) = Some m
        ∧ ∀ pre' rest, s = pre' +:+ rest →
            (String.length pre' < String.length pre)%nat →
            matchHere p rest = None
  | None => ∀ pre' rest, s = pre' +:+ rest → matchHere p rest = None
  end.
Proof.
  induction s as [|c s IH].
  - simpl. destruct (matchHere p "") as [m|] eqn:E.
    + destruct (matchHere_prefix _ _ _ E) as [post Hp].
      exists "", post. rewrite str_app_nil_l, <- Hp.
      split; [done|]. split; [done|]. simpl. lia.
    + intros [|c pre'] rest; [|done]. rewrite str_app_nil_l. by intros <-.
  - simpl. destruct (matchHere p (String c s)) as [m|] eqn:E.
    + destruct (matchHere_prefix _ _ _ E) as [post Hp].
      exists "", post. rewrite str_app_nil_l, <- Hp.
      split; [done|]. split; [done|]. simpl. lia.
    + destruct (search p s) as [m|].
      * destruct IH as (pre & post & -> & Hm & Hfirst).
        exists (String c pre), post. split; [by rewrite str_app_cons|].
        split; [done|].
        intros [|c' pre'] rest Hs Hlen.
        { rewrite str_app_nil_l in Hs. by subst rest. }
        rewrite str_app_cons in Hs. injection Hs as -> Hs.
        apply (Hfirst pre' rest Hs). simpl in Hlen. lia.
      * intros [|c' pre'] rest Hs.
        { rewrite str_app_nil_l in Hs. by subst rest. }
        rewrite str_app_cons in Hs. injection Hs as -> Hs.
        by apply (IH pre' rest).
Qed.

Lemma matchHere_cons a p s m :
  matchHere (a :: p) s = Some m ↔
  ∃ c s' m', s = String c s' ∧ accepts a c = true
    ∧ matchHere p s' = Some m' ∧ m = String c m'.
Proof.
  split.
  - destruct s as [|c s]; [done|]. simpl.
    destruct (accepts a c) eqn:Ha; [|done].
    destruct (matchHere p s) as [m'|] eqn:Hm; [|done].
    intros [= <-]. by exists c, s, m'.
  - intros (c & s' & m' & -> & Ha & Hm & ->). simpl. by rewrite Ha, Hm.
Qed.

Lemma accepts_T c : accepts (Lit "T") c = true → c = "T"%char.
Proof. unfold accepts. by intros ->%Ascii.eqb_eq. Qed.

(** At a given position, [/TT\\d{4}/] matches exactly the order codes. *)
Lemma matchHere_orderCode s m :
  matchHere (atoms orderCode) s = Some m ↔
  isOrderCode m ∧ ∃ post, s = m +:+ post.
Proof.
  change (atoms orderCode) with [Lit "T"; Lit "T"; Digit; Digit; Digit; Digit].
  split.
  - intros H. split; [|by eapply matchHere_prefix].
    apply matchHere_cons in H as (c1 & s1 & m1 & -> & ->%accepts_T & H & ->).
    apply matchHere_cons in H as (c2 & s2 & m2 & -> & ->%accepts_T & H & ->).
    apply matchHere_cons in H as (c3 & s3 & m3 & -> & H3 & H & ->).
    apply matchHere_cons in H as (c4 & s4 & m4 & -> & H4 & H & ->).
    apply matchHere_cons in H as (c5 & s5 & m5 & -> & H5 & H & ->).
    apply matchHere_cons in H as (c6 & s6 & m6 & -> & H6 & H & ->).
    injection H as <-. by exists c3, c4, c5, c6.
  - intros [(a & b & c & d & -> & Ha & Hb & Hc & Hd) [post ->]].
    rewrite !str_app_cons, str_app_nil_l.
    repeat (apply matchHere_cons; eexists _, _, _;
            split; [reflexivity|]; split; [done|]; split; [|reflexivity]).
    reflexivity.
Qed.

(** C7. [content.match(/TT\\d{4}/)] yields the order code that occurs
    first in the content: the result is a substring made of [TT] and
    exactly four decimal digits, no order code occurs at an earlier
    offset, and the result is [null] exactly when the content holds no
    order code at all. *)
Theorem match_first_order_code (content : string) :
  match match_ content orderCode with
  | Some id =>
      ∃ i, isOrderCode id ∧ occursAt id content i
        ∧ ∀ j id', isOrderCode id' → occursAt id' content j → (i ≤ j)%nat
  | None => ∀ j id', isOrderCode id' → ¬ occursAt id' content j
  end.
Proof.
  unfold match_. pose proof (search_leftmost (atoms orderCode) content) as H.
  destruct (search (atoms orderCode) content) as [id|].
  - destruct H as (pre & post & Hs & Hm & Hfirst).
    apply matchHere_orderCode in Hm as [Hcode _].
    exists (String.length pre). split; [done|]. split; [by exists pre, post|].
    intros j id' Hcode' (pre' & post' & Hs' & <-).
    destruct (decide (String.length pre ≤ String.length pre')%nat) as [|Hlt];
      [done|exfalso].
    assert (matchHere (atoms orderCode) (id' +:+ post') = None) as Hnone
      by (apply (Hfirst pre'); [done|lia]).
    assert (matchHere (atoms orderCode) (id' +:+ post') = Some id') as Hsome
      by (apply matchHere_orderCode; eauto).
    congruence.
  - intros j id' Hcode' (pre' & post' & Hs' & _).
    assert (matchHere (atoms orderCode) (id' +:+ post') = Some id') as Hsome
      by (apply matchHere_orderCode; eauto).
    rewrite (H pre' _ Hs') in Hsome. done.
Qed.

(** The examples of the specification. *)
Example match_example_found :
  match_ "CHUYEN KHOAN TT1234 NOIDUNG" orderCode = Some "TT1234".
Proof. reflexivity. Qed.

Example match_example_none : match_ "random text no code" orderCode = None.
Proof. reflexivity. Qed.

Example match_example_two : match_ "TT12 x TT5678 TT9999" orderCode = Some "TT5678".
Proof. reflexivity. Qed.

(** A longer run of digits still gives a code: its first four digits. *)
Example match_example_long : match_ "TT12345" orderCode = Some "TT1234".
Proof. reflexivity. Qed.

End Extraction.

(** ** Running the handlers *)

Section Run.

Lemma file_record e w : file (record e w) = file w.
Proof. reflexivity. Qed.

Lemma trace_record e w : trace (record e w) = trace w ++ [e].
Proof. reflexivity. Qed.

Lemma generateLicense_no_key machineId type w :
  privateKey w = None →
  generateLicense machineId type w
  = (Throw (Error "Private Key not configured!"), record (Generate machineId type) w).
Proof.
  intros Hk. unfold generateLicense, bind, emit, read, record. simpl. by rewrite Hk.
Qed.

Lemma generateLicense_not_string machineId type w key :
  privateKey w = Some key → (∀ id, machineId ≠ Str id) →
  generateLicense machineId type w
  = (Throw TypeError, record (Generate machineId type) w).
Proof.
  intros Hk Hid. unfold generateLicense, bind, emit, read, record. simpl. rewrite Hk.
  destruct machineId; try done. by destruct (Hid s).
Qed.

(** With a key configured and a string for the machine id,
    [generateLicense] returns a key and changes nothing. *)
Lemma generateLicense_returns id type w key :
  privateKey w = Some key →
  generateLicense (Str id) type w
  = (Return (issued w (Str id) type), record (Generate (Str id) type) w).
Proof.
  intros Hk. unfold issued, generateLicense, bind, emit, read, ret, record. simpl.
  rewrite Hk.
  destruct (strictEqStr type "M"); [done|].
  destruct (strictEqStr type "Y"); [done|].
  by destruct (strictEqStr type "P").
Qed.

Lemma sendEmail_run to licenseKey orderId w :
  ∃ sent, sendEmail to licenseKey orderId w
          = (Return sent, record (SendEmail to licenseKey orderId) w)
    ∧ (notifierFails w → sent = false).
Proof.
  unfold sendEmail, bind, emit, read, ret, notifierFails, record. simpl.
  destruct (EMAIL_PASS w) as [[|c k]|] eqn:Hp.
  - eexists; split; [done|done].
  - destruct (fetchResult w) eqn:Hf; (eexists; split; [done|]);
      intros [?|[?|?]]; simpl; congruence.
  - eexists; split; [done|done].
Qed.

Lemma fulfilment_run orderId o w db key id :
  file w = Some db → db !! orderId = Some o →
  privateKey w = Some key → prop o "machineId" = Str id →
  ∃ sent,
    fulfilment orderId o w
    = (Return {| status := 200;
                 json := <["success" := Bool true]> {[ "emailSent" := Bool sent ]} |},
       fulfilled w db orderId o)
    ∧ (notifierFails w → sent = false).
Proof.
  intros Hf Ho Hk Hid. unfold fulfilment, fulfilled.
  unfold bind at 1. rewrite Hid, (generateLicense_returns _ _ _ _ Hk).
  set (k := issued w (Str id) (prop o "type")).
  unfold bind at 1. unfold updateOrderStatus, bind at 1, read at 1.
  rewrite file_record, Hf, Ho.
  unfold bind at 1, read at 1, writeFileSync.
  unfold bind at 1.
  match goal with
  | |- context [sendEmail ?a ?b ?c ?w'] =>
      destruct (sendEmail_run a b c w') as (sent & -> & Hsent)
  end.
  exists sent. split; [done|].
  intros Hfail. apply Hsent. exact Hfail.
Qed.

Lemma completedOrder_status o k ts : isCompleted (completedOrder o k ts).
Proof.
  unfold isCompleted, completedOrder.
  rewrite lookup_insert_ne by done.
  rewrite lookup_union_r by done. by rewrite lookup_insert_eq.
Qed.

Lemma completedOrder_licenseKey o k ts :
  completedOrder o k ts !! "licenseKey" = Some (Str k).
Proof.
  unfold completedOrder. rewrite lookup_insert_ne by done.
  erewrite lookup_union_Some_l; [done|]. by rewrite lookup_singleton_eq.
Qed.

Lemma file_fulfilled w db orderId o :
  file (fulfilled w db orderId o)
  = Some (<[orderId := completedOrder o (issued w (prop o "machineId") (prop o "type"))
                         (clockISO w)]> db).
Proof. reflexivity. Qed.

Lemma trace_fulfilled w db orderId o :
  let k := issued w (prop o "machineId") (prop o "type") in
  let db' := <[orderId := completedOrder o k (clockISO w)]> db in
  trace (fulfilled w db orderId o)
  = trace w ++ [Generate (prop o "machineId") (prop o "type"); WriteFile db';
                SendEmail (prop o "email") k orderId].
Proof. simpl. unfold fulfilled, setFile, record. simpl. by rewrite <- !app_assoc. Qed.

Lemma file_dbOf w :
  match file w with Some _ => true | None => false end = true →
  file w = Some (dbOf w).
Proof. unfold dbOf. by destruct (file w). Qed.

Lemma lookup_orderOf w :
  match dbOf w !! "TT1234" with Some _ => true | None => false end = true →
  dbOf w !! "TT1234" = Some (orderOf w).
Proof. unfold orderOf. by destruct (dbOf w !! "TT1234"). Qed.

Lemma try_return {A} (c : M A) catch w a w' :
  c w = (Return a, w') → try c catch w = (Return a, w').
Proof. unfold try. by intros ->. Qed.

Lemma try_throw {A} (c : M A) catch w e w' :
  c w = (Throw e, w') → try c catch w = catch e w'.
Proof. unfold try. by intros ->. Qed.

Lemma isCompleted_strictEq o :
  isCompleted o ↔ strictEqStr (prop o "status") "COMPLETED" = true.
Proof.
  unfold isCompleted, prop, strictEqStr.
  destruct (o !! "status") as [[| | | |s|]|]; simpl; try (split; done).
  rewrite String.eqb_eq. split; [by intros [= ->]|by intros ->].
Qed.

Lemma getOrder_run orderId w :
  getOrder orderId w
  = (Return (match file w with Some db => db !! orderId | None => None end), w).
Proof. reflexivity. Qed.

Lemma webhook_not_found content amount w orderId :
  match_ content orderCode = Some orderId →
  match file w with Some db => db !! orderId | None => None end = None →
  webhook_sepay (Str content) amount w
  = (Return (answer 200 false "Order not found"), w).
Proof.
  intros Hm Ho. unfold webhook_sepay. rewrite Hm.
  unfold try, bind at 1. by rewrite getOrder_run, Ho.
Qed.

(** The webhook, once the order has been looked up. *)
Lemma webhook_found content amount w db orderId o :
  match_ content orderCode = Some orderId →
  file w = Some db → db !! orderId = Some o →
  webhook_sepay (Str content) amount w
  = if strictEqStr (prop o "status") "COMPLETED"
    then (Return (answer 200 true "Order already completed"), w)
    else if lt (parseFloat amount) (parseFloat (prop o "amount"))
    then (Return (answer 200 false "Insufficient amount"), w)
    else try (fulfilment orderId o) internalError w.
Proof.
  intros Hm Hf Ho. unfold webhook_sepay. rewrite Hm.
  unfold try, bind at 1, getOrder, bind at 1, read at 1, ret at 1.
  rewrite Hf, Ho.
  destruct (strictEqStr (prop o "status") "COMPLETED"); [done|].
  destruct (lt (parseFloat amount) (parseFloat (prop o "amount"))); done.
Qed.

Lemma checkAdmin_pass pass next w :
  pass = Some (ADMIN_PASS w) → checkAdmin pass next w = next w.
Proof.
  intros ->. unfold checkAdmin, bind, read. by rewrite String.eqb_refl.
Qed.

Lemma checkAdmin_fail pass next w :
  pass ≠ Some (ADMIN_PASS w) →
  checkAdmin pass next w = (Return (answer 401 false "Unauthorized"), w).
Proof.
  intros Hp. unfold checkAdmin, bind, read. destruct pass as [p|]; [|done].
  destruct (String.eqb_spec p (ADMIN_PASS w)) as [->|]; done.
Qed.

Lemma approve_not_found pass orderId w :
  pass = Some (ADMIN_PASS w) →
  match file w with Some db => db !! ToString orderId | None => None end = None →
  api_approve pass orderId w
  = (Return (answer 404 false "Order not found"), w).
Proof.
  intros Hp Ho. unfold api_approve. rewrite (checkAdmin_pass _ _ _ Hp).
  unfold bind at 1. by rewrite getOrder_run, Ho.
Qed.

(** The admin approval, once the order has been looked up. *)
Lemma approve_found pass orderId w db o :
  pass = Some (ADMIN_PASS w) →
  file w = Some db → db !! ToString orderId = Some o →
  api_approve pass orderId w
  = if strictEqStr (prop o "status") "COMPLETED"
    then (Return (answer 200 false "Order already completed"), w)
    else try (fulfilment (ToString orderId) o) internalErrorAdmin w.
Proof.
  intros Hp Hf Ho. unfold api_approve. rewrite (checkAdmin_pass _ _ _ Hp).
  unfold bind at 1, getOrder, bind at 1, read at 1, ret at 1.
  rewrite Hf, Ho.
  destruct (strictEqStr (prop o "status") "COMPLETED"); done.
Qed.

Lemma delete_run pass orderId w :
  pass = Some (ADMIN_PASS w) →
  api_orders_delete pass orderId w
  = match file w with
    | Some db =>
        match db !! orderId with
        | Some _ =>
            (Return {| status := 200; json := {[ "success" := Bool true ]} |},
             setFile (delete orderId db) (record (WriteFile (delete orderId db)) w))
        | None => (Return (answer 404 false "Not found"), w)
        end
    | None => (Return (answer 404 false "Not found"), w)
    end.
Proof.
  intros Hp. unfold api_orders_delete. rewrite (checkAdmin_pass _ _ _ Hp).
  unfold bind at 1, read at 1.
  destruct (file w) as [db|]; [|done]. by destruct (db !! orderId).
Qed.

End Run.

(** ** Comparison of numbers *)

Section Numbers.

Lemma SFcompare_antisym x y c :
  SFcompare x y = Some c → SFcompare y x = Some (CompOpp c).
Proof.
  destruct x as [sx|sx| |sx mx ex], y as [sy|sy| |sy my ey]; simpl;
    try done; try (destruct sx; intros [= <-]; done);
    try (destruct sy; intros [= <-]; done).
  - destruct sx, sy; intros [= <-]; done.
  - intros [= <-]. f_equal.
    assert (Pos.compare_cont Eq my mx = CompOpp (Pos.compare_cont Eq mx my)) as ->
      by (by rewrite Pos.compare_cont_antisym).
    rewrite (Z.compare_antisym ex ey).
    destruct sx, sy, (ex ?= ey), (Pos.compare_cont Eq mx my); done.
Qed.

Lemma ge_not_lt x y : ge x y = true → lt x y = false.
Proof.
  unfold ge, lt, SFleb, SFltb.
  destruct (SFcompare y x) as [c|] eqn:E; [|done].
  rewrite (SFcompare_antisym _ _ _ E). by destruct c.
Qed.

Lemma ge_negb_lt x y :
  isNaN x = false → isNaN y = false → ge x y = negb (lt x y).
Proof.
  unfold ge, lt, SFleb, SFltb. intros Hx Hy.
  destruct (SFcompare y x) as [c|] eqn:E.
  - rewrite (SFcompare_antisym _ _ _ E). by destruct c.
  - destruct x, y; try done; simpl in E; done.
Qed.

Lemma eq_ge x y : eq x y = true → ge x y = true.
Proof.
  unfold eq, ge, SFeqb, SFleb.
  destruct (SFcompare x y) as [c|] eqn:E; [|done].
  rewrite (SFcompare_antisym _ _ _ E). by destruct c.
Qed.

Lemma gt_ge x y : lt y x = true → ge x y = true.
Proof. unfold lt, ge, SFltb, SFleb. by destruct (SFcompare y x) as [[]|]. Qed.

Lemma lt_NaN_l x y : isNaN x = true → lt x y = false.
Proof. by destruct x. Qed.

End Numbers.

(** ** Order creation *)

Lemma ToBoolean_false v :
  ToBoolean v = false ↔
  v = Undefined ∨ v = Null ∨ v = Bool false ∨ v = Str ""
  ∨ (∃ s, v = Num (S754_zero s)) ∨ v = Num S754_nan.
Proof.
  split.
  - destruct v as [| |[]|[]|[]|]; simpl; try done; eauto 10.
  - intros [->|[->|[->|[->|[[s ->]| ->]]]]]; done.
Qed.

Section Creation.

(** The fields of a request body, and the world it comes to. *)
Context (machineId email type amount : Value) (w : World).

Lemma create_order_missing :
  ToBoolean machineId && ToBoolean email && ToBoolean type && ToBoolean amount
  = false →
  create_order machineId email type amount w
  = (Return {| status := 400;
               json := {[ "error" := Str "Missing required fields" ]} |}, w).
Proof.
  intros H. unfold create_order.
  destruct (ToBoolean machineId), (ToBoolean email), (ToBoolean type),
    (ToBoolean amount); done.
Qed.

Lemma create_order_saves :
  ToBoolean machineId && ToBoolean email && ToBoolean type && ToBoolean amount
  = true →
  let orderId := "TT" +:+ pretty (random w) in
  let db' := <[orderId := pendingOrder machineId email type amount (clockISO w)]>
               (dbOf w) in
  create_order machineId email type amount w
  = (Return (orderCreated amount orderId), setFile db' (record (WriteFile db') w)).
Proof.
  intros H. unfold create_order.
  destruct (ToBoolean machineId), (ToBoolean email), (ToBoolean type),
    (ToBoolean amount); done.
Qed.



End Creation.




(** ** What a request does to the world *)

Section Effect.

Lemma generateLicense_cases machineId type w :
  (∃ e, generateLicense machineId type w
        = (Throw e, record (Generate machineId type) w))
  ∨ (∃ key id, privateKey w = Some key ∧ machineId = Str id).
Proof.
  destruct (privateKey w) as [key|] eqn:Hk.
  - destruct machineId as [| | | |id|];
      try (left; eexists; by apply (generateLicense_not_string _ _ _ key)).
    right. by exists key, id.
  - left. eexists. by apply generateLicense_no_key.
Qed.

Lemma fulfilment_throws orderId o w e w' :
  generateLicense (prop o "machineId") (prop o "type") w = (Throw e, w') →
  fulfilment orderId o w = (Throw e, w').
Proof. intros H. unfold fulfilment, bind at 1. by rewrite H. Qed.

Lemma fulfilment_world orderId o w db catch :
  file w = Some db → db !! orderId = Some o →
  (∀ e w1, (catch e w1).2 = w1) →
  let w' := (try (fulfilment orderId o) catch w).2 in
  w' = record (Generate (prop o "machineId") (prop o "type")) w
  ∨ w' = fulfilled w db orderId o.
Proof.
  intros Hf Ho Hcatch w'. subst w'.
  destruct (generateLicense_cases (prop o "machineId") (prop o "type") w)
    as [[e He]|(key & id & Hk & Hid)].
  - left. rewrite (try_throw _ _ _ _ _ (fulfilment_throws _ _ _ _ _ He)).
    by rewrite Hcatch.
  - right. destruct (fulfilment_run _ _ _ _ _ _ Hf Ho Hk Hid) as (sent & Hrun & _).
    by rewrite (try_return _ _ _ _ _ Hrun).
Qed.

(** A request leaves the world as it is, or stores a pending order, or
    calls the license generator in vain, or fulfils a stored order, or
    deletes one. *)
Lemma handle_world r w :
  let w' := (handle r w).2 in
  w' = w
  ∨ (∃ id machineId email type amount,
       let db' := <[id := pendingOrder machineId email type amount (clockISO w)]>
                    (dbOf w) in
       w' = setFile db' (record (WriteFile db') w))
  ∨ (∃ machineId type, w' = record (Generate machineId type) w)
  ∨ (∃ db id o,
       file w = Some db ∧ db !! id = Some o ∧ w' = fulfilled w db id o)
  ∨ (∃ db id,
       file w = Some db
       ∧ w' = setFile (delete id db) (record (WriteFile (delete id db)) w)).
Proof.
  destruct r as [machineId email type amount|content amount|pass orderId|pass orderId];
    simpl.
  - (* create *)
    destruct (ToBoolean machineId && ToBoolean email && ToBoolean type
              && ToBoolean amount) eqn:Hp.
    + right. left. rewrite (create_order_saves _ _ _ _ _ Hp).
      by eexists _, _, _, _, _.
    + left. by rewrite (create_order_missing _ _ _ _ _ Hp).
  - (* webhook *)
    destruct content as [| | | |content|]; try by left.
    destruct (match_ content orderCode) as [id|] eqn:Hm;
      [|left; unfold webhook_sepay; by rewrite Hm].
    destruct (file w) as [db|] eqn:Hf;
      [|left; rewrite (webhook_not_found _ _ _ _ Hm); [done|by rewrite Hf]].
    destruct (db !! id) as [o|] eqn:Ho;
      [|left; rewrite (webhook_not_found _ _ _ _ Hm); [done|by rewrite Hf]].
    rewrite (webhook_found _ _ _ _ _ _ Hm Hf Ho).
    destruct (strictEqStr (prop o "status") "COMPLETED"); [by left|].
    destruct (lt (parseFloat amount) (parseFloat (prop o "amount"))); [by left|].
    destruct (fulfilment_world id o w db internalError Hf Ho) as [E|E];
      [done| |]; rewrite E.
    + right. right. left. by eexists _, _.
    + right. right. right. left. by exists db, id, o.
  - (* approve *)
    destruct (decide (pass = Some (ADMIN_PASS w))) as [Hp|Hp];
      [|left; unfold api_approve; by rewrite (checkAdmin_fail _ _ _ Hp)].
    destruct (file w) as [db|] eqn:Hf;
      [|left; rewrite (approve_not_found _ _ _ Hp); [done|by rewrite Hf]].
    destruct (db !! ToString orderId) as [o|] eqn:Ho;
      [|left; rewrite (approve_not_found _ _ _ Hp); [done|by rewrite Hf]].
    rewrite (approve_found _ _ _ _ _ Hp Hf Ho).
    destruct (strictEqStr (prop o "status") "COMPLETED"); [by left|].
    destruct (fulfilment_world (ToString orderId) o w db internalErrorAdmin Hf Ho)
      as [E|E]; [done| |]; rewrite E.
    + right. right. left. by eexists _, _.
    + right. right. right. left. by exists db, (ToString orderId), o.
  - (* delete *)
    destruct (decide (pass = Some (ADMIN_PASS w))) as [Hp|Hp];
      [|left; unfold api_orders_delete; by rewrite (checkAdmin_fail _ _ _ Hp)].
    rewrite (delete_run _ _ _ Hp).
    destruct (file w) as [db|] eqn:Hf; [|by left].
    destruct (db !! orderId) as [o|] eqn:Ho; [|by left].
    right. right. right. right. by exists db, orderId.
Qed.

(** Whatever the request, the notifier is called only after the completed
    order has been written. *)
Lemma handle_notified r w : notifiedAfterCommit w r.
Proof.
  unfold notifiedAfterCommit.
  destruct (handle_world r w)
    as [E|[(id & m & e & t & a & E)|[(m & t & E)|[(db & id & o & Hf & Ho & E)
       |(db & id & Hf & E)]]]]; rewrite E.
  - exists []. split; [by rewrite List.app_nil_r|]. by intros to k i ?%elem_of_nil.
  - eexists [_]. split; [done|].
    by intros to k i [=]%list_elem_of_singleton.
  - eexists [_]. split; [done|].
    by intros to k i [=]%list_elem_of_singleton.
  - set (k := issued w (prop o "machineId") (prop o "type")).
    set (o' := completedOrder o k (clockISO w)).
    set (db' := <[id := o']> db).
    exists [Generate (prop o "machineId") (prop o "type"); WriteFile db';
            SendEmail (prop o "email") k id].
    split; [apply trace_fulfilled|].
    intros to k' i Hin.
    apply elem_of_cons in Hin as [[=]|Hin].
    apply elem_of_cons in Hin as [[=]|Hin].
    apply list_elem_of_singleton in Hin as [= -> -> ->].
    exists (prop o "machineId"), (prop o "type"), db', o'.
    split; [reflexivity|]. split; [apply file_fulfilled|].
    split; [apply lookup_insert_eq|].
    split; [apply completedOrder_status|apply completedOrder_licenseKey].
  - eexists [_]. split; [done|].
    by intros to k i [=]%list_elem_of_singleton.
Qed.

End Effect.

(** ** Fulfilment *)

Section Fulfilment.

(** An order [o] found in the orders file under [orderId]. *)
Context (w : World) (db : DB) (orderId : string) (o : Obj).
Hypothesis Hfile : file w = Some db.
Hypothesis Horder : db !! orderId = Some o.

(** C1, as the code has it.  For an order whose status is COMPLETED, a
    further webhook or admin approval changes nothing: the store is left
    as it is and neither the license generator nor the notifier is
    called (the world, trace included, is unchanged).  The answer says
    "Order already completed" and does not carry the license key; the
    webhook reports success. *)
Theorem completed_order_short_circuit :
  isCompleted o →
  (∀ content amount,
     match_ content orderCode = Some orderId →
     webhook_sepay (Str content) amount w
     = (Return (answer 200 true "Order already completed"), w))
  ∧ (∀ pass orderIdV,
       ToString orderIdV = orderId →
       ∃ r, api_approve pass orderIdV w = (Return r, w)
         ∧ json r !! "licenseKey" = None
         ∧ (pass = Some (ADMIN_PASS w) →
            status r = 200
            ∧ json r !! "message" = Some (Str "Order already completed"))).
Proof.
  intros Hc. apply isCompleted_strictEq in Hc. split.
  - intros content amount Hm.
    by rewrite (webhook_found _ _ _ _ _ _ Hm Hfile Horder), Hc.
  - intros pass orderIdV HorderId.
    destruct (decide (pass = Some (ADMIN_PASS w))) as [Hp|Hp].
    + rewrite <- HorderId in Horder.
      rewrite (approve_found _ _ _ _ _ Hp Hfile Horder), Hc.
      eexists. split; [done|]. split; [done|]. done.
    + unfold api_approve. rewrite (checkAdmin_fail _ _ _ Hp).
      eexists. split; [done|]. split; [done|]. done.
Qed.

(** X20.  The webhook's amount check, for an order that is not completed:
    when the paid amount is at least the required one (in particular
    when they are equal, and when more was paid) the request goes on to
    fulfilment; when the paid amount is less, the request is answered
    "Insufficient amount" and nothing changes.  For amounts that are
    numbers the two cases are exhaustive: the check passes exactly when
    [paid >= required]. *)
Theorem amount_check content amount :
  match_ content orderCode = Some orderId → ¬ isCompleted o →
  let paid := parseFloat amount in
  let required := parseFloat (prop o "amount") in
  (amountSatisfies paid required = true →
   webhook_sepay (Str content) amount w
   = try (fulfilment orderId o) internalError w)
  ∧ (eq paid required = true ∨ lt required paid = true →
     amountSatisfies paid required = true)
  ∧ (lt paid required = true →
     amountSatisfies paid required = false
     ∧ webhook_sepay (Str content) amount w
       = (Return (answer 200 false "Insufficient amount"), w))
  ∧ (isNaN paid = false → isNaN required = false →
     amountSatisfies paid required = negb (lt paid required)).
Proof.
  intros Hm Hc paid required.
  rewrite (webhook_found _ _ _ _ _ _ Hm Hfile Horder).
  destruct (strictEqStr (prop o "status") "COMPLETED") eqn:Hs;
    [by apply isCompleted_strictEq in Hs|].
  fold paid required. unfold amountSatisfies.
  split; [|split; [|split]].
  - intros Hge. by rewrite (ge_not_lt _ _ Hge).
  - intros [He|Hgt]; [by apply eq_ge|by apply gt_ge].
  - intros Hlt. rewrite Hlt. split; [|done].
    destruct (ge paid required) eqn:Hge; [|done].
    apply ge_not_lt in Hge. congruence.
  - apply ge_negb_lt.
Qed.

(** C10.  When the paid amount of a webhook does not parse as a number,
    the insufficiency check does not reject it: for an order that is not
    completed the request goes on to fulfilment, whatever the required
    amount, exactly as a request with a sufficient amount does; with a
    key configured and a string for the machine id the order is completed
    and success is reported. *)
Theorem nan_amount_not_rejected content amount :
  match_ content orderCode = Some orderId → ¬ isCompleted o →
  isNaN (parseFloat amount) = true →
  webhook_sepay (Str content) amount w
  = try (fulfilment orderId o) internalError w
  ∧ (∀ sufficient,
       amountSatisfies (parseFloat sufficient) (parseFloat (prop o "amount"))
       = true →
       webhook_sepay (Str content) amount w
       = webhook_sepay (Str content) sufficient w)
  ∧ (∀ key id,
       privateKey w = Some key → prop o "machineId" = Str id →
       ∃ sent,
         webhook_sepay (Str content) amount w
         = (Return {| status := 200;
                      json := <["success" := Bool true]>
                                {[ "emailSent" := Bool sent ]} |},
            fulfilled w db orderId o)).
Proof.
  intros Hm Hc Hnan.
  assert (webhook_sepay (Str content) amount w
          = try (fulfilment orderId o) internalError w) as E.
  { rewrite (webhook_found _ _ _ _ _ _ Hm Hfile Horder).
    destruct (strictEqStr (prop o "status") "COMPLETED") eqn:Hs;
      [by apply isCompleted_strictEq in Hs|].
    by rewrite (lt_NaN_l _ _ Hnan). }
  split; [done|]. split.
  - intros sufficient Hge. rewrite E.
    rewrite (webhook_found _ sufficient _ _ _ _ Hm Hfile Horder).
    destruct (strictEqStr (prop o "status") "COMPLETED") eqn:Hs;
      [by apply isCompleted_strictEq in Hs|].
    by rewrite (ge_not_lt _ _ Hge).
  - intros key id Hk Hid. rewrite E.
    destruct (fulfilment_run _ _ _ _ _ _ Hfile Horder Hk Hid)
      as (sent & Hrun & _).
    exists sent. by apply try_return.
Qed.

(** C9.  When the notifier fails after the completed state has been
    committed, the commit stays: the orders file at the end is the one
    written with status COMPLETED and the license key, the answer is the
    partial success (success true, emailSent false), and the notifier
    was called after the write, as the recorded calls show.  This holds
    for the webhook and for the admin approval.  No request at all calls
    the notifier before the completed order has been written. *)
Theorem notifier_failure_keeps_commit key id :
  ¬ isCompleted o →
  privateKey w = Some key → prop o "machineId" = Str id →
  notifierFails w →
  let k := issued w (Str id) (prop o "type") in
  let o' := completedOrder o k (clockISO w) in
  let db' := <[orderId := o']> db in
  let after (r : Result Response * World) :=
    r.1 = Return partialSuccess
    ∧ file r.2 = Some db'
    ∧ trace r.2 = trace w ++ [Generate (Str id) (prop o "type"); WriteFile db';
                               SendEmail (prop o "email") k orderId] in
  isCompleted o' ∧ o' !! "licenseKey" = Some (Str k)
  ∧ (∀ content amount,
       match_ content orderCode = Some orderId →
       lt (parseFloat amount) (parseFloat (prop o "amount")) = false →
       after (webhook_sepay (Str content) amount w))
  ∧ (∀ orderIdV,
       ToString orderIdV = orderId →
       after (api_approve (Some (ADMIN_PASS w)) orderIdV w))
  ∧ (∀ r, notifiedAfterCommit w r).
Proof.
  intros Hc Hk Hid Hfail k o' db' after.
  destruct (strictEqStr (prop o "status") "COMPLETED") eqn:Hs;
    [by apply isCompleted_strictEq in Hs|].
  destruct (fulfilment_run _ _ _ _ _ _ Hfile Horder Hk Hid)
    as (sent & Hrun & Hsent).
  rewrite (Hsent Hfail) in Hrun.
  assert (∀ catch, after (try (fulfilment orderId o) catch w)) as Hafter.
  { intros catch. rewrite (try_return _ _ _ _ _ Hrun). unfold after.
    cbn [fst snd]. split; [done|].
    rewrite file_fulfilled, trace_fulfilled, Hid. done. }
  split; [apply completedOrder_status|].
  split; [apply completedOrder_licenseKey|].
  split; [|split; [|intros r; apply handle_notified]].
  - intros content amount Hm Hlt.
    rewrite (webhook_found _ _ _ _ _ _ Hm Hfile Horder), Hs, Hlt. apply Hafter.
  - intros orderIdV HorderId.
    assert (db !! ToString orderIdV = Some o) as Ho' by by rewrite HorderId.
    rewrite (approve_found _ _ _ _ _ eq_refl Hfile Ho'), Hs, HorderId.
    apply Hafter.
Qed.

End Fulfilment.

Lemma completed_order_short_circuit_witness :
  webhook_sepay (Str "CK TT1234") (Num (ofZ 200000)) demoCompleted
  = (Return (answer 200 true "Order already completed"), demoCompleted).
Proof.
  refine (proj1 (completed_order_short_circuit demoCompleted (dbOf demoCompleted)
                   "TT1234" (orderOf demoCompleted) _ _ _) _ _ _).
  - apply file_dbOf. vm_compute. reflexivity.
  - apply lookup_orderOf. vm_compute. reflexivity.
  - vm_compute. reflexivity.
  - vm_compute. reflexivity.
Defined.

(** C1 as stated fails: for the completed order [TT1234], whose stored
    key is the one shown, neither the webhook nor the admin approval
    answers with success and the stored license key. *)
Lemma completed_order_reply_counterexample :
  isCompleted (orderOf demoCompleted)
  ∧ orderOf demoCompleted !! "licenseKey"
    = Some (Str "M-ABCDEFGH-20240302-SIG(M-ABCDEFGH-20240302)")
  ∧ ¬ returnsStoredKey (orderOf demoCompleted)
        (webhook_sepay (Str "CK TT1234") (Num (ofZ 200000)) demoCompleted).1
  ∧ ¬ returnsStoredKey (orderOf demoCompleted)
        (api_approve (Some "admin123") (Str "TT1234") demoCompleted).1.
Proof.
  split; [vm_compute; reflexivity|]. split; [vm_compute; reflexivity|].
  split; intros (resp & Hr & Hs & Hk); vm_compute in Hr;
    injection Hr as <-; vm_compute in Hk; discriminate.
Qed.

Lemma amount_check_witness :
  amountSatisfies (parseFloat (Str "200000.50")) (parseFloat (Num (ofZ 200000)))
  = negb (lt (parseFloat (Str "200000.50")) (parseFloat (Num (ofZ 200000)))).
Proof.
  refine (proj2 (proj2 (proj2
    (amount_check demoPending (dbOf demoPending) "TT1234" (orderOf demoPending)
       _ _ "CK TT1234" (Str "200000.50") _ _))) _ _).
  - apply file_dbOf. vm_compute. reflexivity.
  - apply lookup_orderOf. vm_compute. reflexivity.
  - vm_compute. reflexivity.
  - vm_compute. discriminate.
  - vm_compute. reflexivity.
  - vm_compute. reflexivity.
Defined.

(** C5, at the failing input.  The order TT1234 asks for 200000 and the
    webhook reports the paid amount "abc", which is no number.  The
    comparison [paid >= required] is false, yet the amount check does not
    reject the request: it is answered with success and the order is
    completed. *)
Theorem amount_check_nan_divergence :
  let paid := parseFloat (Str "abc") in
  let required := parseFloat (prop (orderOf demoPending) "amount") in
  let r := webhook_sepay (Str "CK TT1234") (Str "abc") demoPending in
  isNaN paid = true
  ∧ required = ofZ 200000
  ∧ amountSatisfies paid required = false
  ∧ r.1 = Return {| status := 200;
                    json := <["success" := Bool true]>
                              {[ "emailSent" := Bool true ]} |}
  ∧ isCompleted (orderOf r.2).
Proof. vm_compute. done. Qed.

Lemma nan_amount_not_rejected_witness :
  ∃ sent,
    webhook_sepay (Str "CK TT1234") (Str "abc") demoPending
    = (Return {| status := 200;
                 json := <["success" := Bool true]> {[ "emailSent" := Bool sent ]} |},
       fulfilled demoPending (dbOf demoPending) "TT1234" (orderOf demoPending)).
Proof.
  refine (proj2 (proj2 (nan_amount_not_rejected demoPending (dbOf demoPending)
                          "TT1234" (orderOf demoPending) _ _ "CK TT1234"
                          (Str "abc") _ _ _))
            demoKey "abcdefgh1234" _ _).
  - apply file_dbOf. vm_compute. reflexivity.
  - apply lookup_orderOf. vm_compute. reflexivity.
  - vm_compute. reflexivity.
  - vm_compute. discriminate.
  - vm_compute. reflexivity.
  - reflexivity.
  - vm_compute. reflexivity.
Defined.

Lemma notifier_failure_keeps_commit_witness :
  (webhook_sepay (Str "CK TT1234") (Num (ofZ 200000)) demoOffline).1
  = Return partialSuccess.
Proof.
  refine (proj1 (proj1 (proj2 (proj2
    (notifier_failure_keeps_commit demoOffline (dbOf demoOffline) "TT1234"
       (orderOf demoOffline) _ _ demoKey "abcdefgh1234" _ _ _ _)))
    "CK TT1234" (Num (ofZ 200000)) _ _)).
  - apply file_dbOf. vm_compute. reflexivity.
  - apply lookup_orderOf. vm_compute. reflexivity.
  - vm_compute. discriminate.
  - reflexivity.
  - vm_compute. reflexivity.
  - right. right. discriminate.
  - vm_compute. reflexivity.
  - vm_compute. reflexivity.
Defined.

(** ** The store invariant *)

Section Invariant.

Lemma pendingOrder_invariant machineId email type amount ts :
  licenseIffCompleted (pendingOrder machineId email type amount ts).
Proof.
  unfold licenseIffCompleted, isCompleted, pendingOrder. split.
  - intros [v Hv]. by repeat (rewrite lookup_insert_ne in Hv by done).
  - rewrite lookup_insert_ne by done. by rewrite lookup_insert_eq.
Qed.

Lemma completedOrder_invariant o k ts : licenseIffCompleted (completedOrder o k ts).
Proof.
  split; intros _; [apply completedOrder_status|].
  rewrite completedOrder_licenseKey. by eexists.
Qed.

(** C3.  An order has a license key if and only if its status is
    COMPLETED: every operation (order creation, webhook, admin approval,
    deletion) keeps this true of all orders in the store, and so it holds
    in every state the server can reach. *)
Theorem license_iff_completed :
  (∀ r w, storeInvariant w → storeInvariant (handle r w).2)
  ∧ (∀ w, reachable w → storeInvariant w).
Proof.
  assert (∀ r w, storeInvariant w → storeInvariant (handle r w).2) as Hstep.
  { intros r w Hinv db' id' o' Hf' Ho'.
    destruct (handle_world r w)
      as [E|[(id & m & e & t & a & E)|[(m & t & E)|[(db & id & o & Hf & Ho & E)
         |(db & id & Hf & E)]]]];
      rewrite E in Hf'.
    - by apply (Hinv db' id').
    - injection Hf' as <-.
      destruct (decide (id = id')) as [->|Hne].
      + rewrite lookup_insert_eq in Ho'. injection Ho' as <-.
        apply pendingOrder_invariant.
      + rewrite lookup_insert_ne in Ho' by done. unfold dbOf in Ho'.
        destruct (file w) as [db|] eqn:Hf; [by apply (Hinv db id')|done].
    - by apply (Hinv db' id').
    - rewrite file_fulfilled in Hf'. injection Hf' as <-.
      destruct (decide (id = id')) as [->|Hne].
      + rewrite lookup_insert_eq in Ho'. injection Ho' as <-.
        apply completedOrder_invariant.
      + rewrite lookup_insert_ne in Ho' by done. by apply (Hinv db id').
    - injection Hf' as <-.
      apply lookup_delete_Some in Ho' as [_ Ho']. by apply (Hinv db id'). }
  split; [done|].
  induction 1 as [w [Hi|Hi]|w r _ IH|w w' _ IH Hf].
  - intros db id o Hf. congruence.
  - intros db id o Hf Ho. rewrite Hi in Hf. injection Hf as <-. done.
  - by apply Hstep.
  - intros db id o Hf' Ho. rewrite Hf in Hf'. by apply (IH db id).
Qed.

End Invariant.

Lemma license_iff_completed_witness :
  storeInvariant
    (handle (ReportPayment (Str "CK TT1234") (Str "200000"))
       (handle (CreateOrder (Str "abcdefgh1234") (Str "buyer@example.com")
                  (Str "M") (Str "200000")) demoWorld).2).2.
Proof.
  apply (proj2 license_iff_completed).
  apply reach_handle, reach_handle, reach_initial. left. reflexivity.
Defined.

(** ** The calendar *)

Section Calendar.

Ltac euclid := Z.to_euclidean_division_equations; lia.

Lemma isLeapYear_cases y :
  (isLeapYear y = true ∧ y mod 4 = 0 ∧ (y mod 100 ≠ 0 ∨ y mod 400 = 0))
  ∨ (isLeapYear y = false ∧ (y mod 4 ≠ 0 ∨ (y mod 100 = 0 ∧ y mod 400 ≠ 0))).
Proof.
  unfold isLeapYear.
  destruct (Z.eqb_spec (y mod 4) 0), (Z.eqb_spec (y mod 100) 0),
    (Z.eqb_spec (y mod 400) 0); simpl; intuition lia.
Qed.

Lemma isLeapYear_period y k : isLeapYear (y + 400 * k) = isLeapYear y.
Proof.
  unfold isLeapYear.
  replace (y + 400 * k) with (y + (100 * k) * 4) at 1 by lia.
  replace (y + 400 * k) with (y + (4 * k) * 100) at 1 by lia.
  replace (y + 400 * k) with (y + k * 400) at 1 by lia.
  by rewrite !Z.mod_add by lia.
Qed.

Lemma month_cases m :
  1 ≤ m ≤ 12 →
  m = 1 ∨ m = 2 ∨ m = 3 ∨ m = 4 ∨ m = 5 ∨ m = 6 ∨ m = 7 ∨ m = 8 ∨ m = 9
  ∨ m = 10 ∨ m = 11 ∨ m = 12.
Proof. lia. Qed.

Lemma daysInMonth_bounds y m : 28 ≤ daysInMonth y m ≤ 31.
Proof. unfold daysInMonth. repeat case_match; lia. Qed.

(** Within the 400-year cycle the year is recovered from the day number;
    years are counted from 1 March, so that the leap day closes them. *)
Lemma yoe_recover yoe doy :
  0 ≤ yoe < 400 → 0 ≤ doy →
  doy < (if isLeapYear (yoe + 1) then 366 else 365) →
  let doe := yoe * 365 + yoe / 4 - yoe / 100 + doy in
  0 ≤ doe < 146097
  ∧ (doe - doe / 1460 + doe / 36524 - doe / 146096) / 365 = yoe.
Proof.
  destruct (isLeapYear_cases (yoe + 1)) as [(-> & H4 & H100)|(-> & H)];
    intros Hy Hd Hl doe; subst doe; euclid.
Qed.

Lemma month_recover y m d :
  1 ≤ m ≤ 12 → 1 ≤ d ≤ daysInMonth y m →
  let mp := if 2 <? m then m - 3 else m + 9 in
  (5 * ((153 * mp + 2) / 5 + d - 1) + 2) / 153 = mp
  ∧ 0 ≤ (153 * mp + 2) / 5 + d - 1
  ∧ (153 * mp + 2) / 5 + d - 1
    < (if m =? 2 then (if isLeapYear y then 366 else 365) else 337).
Proof.
  intros Hm. unfold daysInMonth.
  destruct (month_cases m Hm)
    as [->|[->|[->|[->|[->|[->|[->|[->|[->|[->|[->| ->]]]]]]]]]]];
    cbn -[Z.div Z.mul Z.add Z.sub Z.modulo isLeapYear]; intros Hd;
    repeat case_match; euclid.
Qed.

(** A valid date is recovered from its day number. *)
Lemma civilFromDays_daysFromCivil y m d :
  validDate y m d → civilFromDays (daysFromCivil y m d) = (y, m, d).
Proof.
  intros [Hm Hd]. unfold daysFromCivil, civilFromDays.
  set (ys := if m <=? 2 then y - 1 else y).
  set (era := ys / 400). set (yoe := ys - era * 400).
  set (mp := if 2 <? m then m - 3 else m + 9).
  set (doy := (153 * mp + 2) / 5 + d - 1).
  set (doe := yoe * 365 + yoe / 4 - yoe / 100 + doy).
  assert (0 ≤ yoe < 400) as Hyoe by (unfold yoe, era; euclid).
  destruct (month_recover y m d Hm Hd) as (Hmp & Hdoy & Hfeb).
  fold mp in Hmp, Hdoy, Hfeb. fold doy in Hmp, Hdoy, Hfeb.
  assert (doy < (if isLeapYear (yoe + 1) then 366 else 365)) as Hleap.
  { destruct (Z.eqb_spec m 2) as [->|Hne].
    - replace (isLeapYear (yoe + 1)) with (isLeapYear y); [done|].
      rewrite <- (isLeapYear_period y (- era)). f_equal.
      unfold yoe, ys. simpl. lia.
    - destruct (isLeapYear (yoe + 1)); lia. }
  destruct (yoe_recover yoe doy Hyoe) as [Hdoe Hrec]; [lia|done|].
  fold doe in Hdoe, Hrec.
  replace (era * 146097 + doe - 719468 + 719468) with (doe + era * 146097) by lia.
  rewrite Z.div_add by lia. rewrite (Z.div_small doe) by lia.
  replace (doe + era * 146097 - (0 + era) * 146097) with doe by lia.
  rewrite Hrec.
  replace (doe - (365 * yoe + yoe / 4 - yoe / 100)) with doy by (unfold doe; lia).
  rewrite Hmp.
  assert ((if mp <? 10 then mp + 3 else mp - 9) = m) as ->
    by (unfold mp; repeat case_match; lia).
  f_equal; [f_equal|].
  - unfold yoe, ys. repeat case_match; lia.
  - unfold doy. lia.
Qed.

(** Every day number is the day number of a valid date. *)
Lemma civilFromDays_valid z :
  let '(y, m, d) := civilFromDays z in validDate y m d.
Proof.
  unfold civilFromDays, validDate.
  set (z' := z + 719468). set (era := z' / 146097).
  set (doe := z' - era * 146097).
  assert (0 ≤ doe < 146097) as Hdoe by (unfold doe, era; euclid).
  clearbody doe.
  set (yoe := (doe - doe / 1460 + doe / 36524 - doe / 146096) / 365).
  set (doy := doe - (365 * yoe + yoe / 4 - yoe / 100)).
  assert (0 ≤ yoe < 400 ∧ 0 ≤ doy
          ∧ doy < (if isLeapYear (yoe + 1) then 366 else 365))
    as (Hyoe & Hdoy & Hleap).
  { unfold doy.
    destruct (isLeapYear_cases (yoe + 1)) as [(-> & H4 & H100)|(-> & H)];
      unfold yoe in *; euclid. }
  clearbody doy yoe.
  set (mp := (5 * doy + 2) / 153).
  assert ((5 * doy + 2) / 153 = mp) as Hmp by done.
  assert (0 ≤ mp ≤ 11) as Hr by (destruct (isLeapYear (yoe + 1)); euclid).
  clearbody mp.
  assert (isLeapYear (yoe + era * 400 + 1) = isLeapYear (yoe + 1)) as Hper
    by (rewrite <- (isLeapYear_period (yoe + 1) era); f_equal; lia).
  assert (mp = 0 ∨ mp = 1 ∨ mp = 2 ∨ mp = 3 ∨ mp = 4 ∨ mp = 5 ∨ mp = 6
          ∨ mp = 7 ∨ mp = 8 ∨ mp = 9 ∨ mp = 10 ∨ mp = 11)
    as [->|[->|[->|[->|[->|[->|[->|[->|[->|[->|[->| ->]]]]]]]]]]] by lia;
    cbn -[Z.div Z.mul Z.add Z.sub Z.modulo isLeapYear]; unfold daysInMonth;
    cbn -[Z.div Z.mul Z.add Z.sub Z.modulo isLeapYear];
    rewrite ?Hper; destruct (isLeapYear (yoe + 1)); repeat case_match;
    first [congruence | euclid].
Qed.

(** The first of a month follows the last day of the month before. *)
Lemma daysFromCivil_nextMonth y m :
  1 ≤ m ≤ 12 →
  daysFromCivil y m 1 + daysInMonth y m
  = daysFromCivil (nextMonth y m).1 (nextMonth y m).2 1.
Proof.
  intros Hm. unfold daysInMonth.
  destruct (isLeapYear_cases y) as [(-> & H4 & H100)|(-> & H)];
    destruct (month_cases m Hm)
      as [->|[->|[->|[->|[->|[->|[->|[->|[->|[->|[->| ->]]]]]]]]]]];
    cbn -[Z.div Z.mul Z.add Z.sub Z.modulo]; unfold daysFromCivil;
    cbn -[Z.div Z.mul Z.add Z.sub Z.modulo]; repeat case_match; euclid.
Qed.

Lemma daysFromCivil_day y m d :
  daysFromCivil y m d = daysFromCivil y m 1 + d - 1.
Proof. unfold daysFromCivil. lia. Qed.

Lemma nextMonth_range y m :
  1 ≤ m ≤ 12 → 1 ≤ (nextMonth y m).2 ≤ 12.
Proof. unfold nextMonth. case_match; simpl; lia. Qed.

(** Counting the day of the month on from the first of a month, as
    [MakeDay] does, gives the date that runs over into the next month. *)
Lemma civilFromDays_rollOver y m d :
  1 ≤ m ≤ 12 → 1 ≤ d ≤ 31 →
  civilFromDays (daysFromCivil y m 1 + d - 1) = rollOver y m d.
Proof.
  intros Hm Hd. unfold rollOver.
  pose proof (daysInMonth_bounds y m) as Hb.
  destruct (Z.leb_spec d (daysInMonth y m)) as [Hle|Hgt].
  - rewrite <- daysFromCivil_day. apply civilFromDays_daysFromCivil. split; lia.
  - replace (daysFromCivil y m 1 + d - 1)
      with (daysFromCivil y m 1 + daysInMonth y m + (d - daysInMonth y m) - 1)
      by lia.
    rewrite (daysFromCivil_nextMonth _ _ Hm), <- daysFromCivil_day.
    pose proof (nextMonth_range y m Hm) as Hn.
    pose proof (daysInMonth_bounds (nextMonth y m).1 (nextMonth y m).2) as Hb'.
    rewrite civilFromDays_daysFromCivil by (split; lia).
    by destruct (nextMonth y m).
Qed.

Lemma Day_MakeDate day t : Day (MakeDate day (TimeWithinDay t)) = day.
Proof. unfold Day, MakeDate, TimeWithinDay, msPerDay. euclid. Qed.

Lemma civilDate_civil now : civilDate now = civilFromDays (Day (localTime now)).
Proof.
  unfold civilDate, getFullYear, getMonth, getDate.
  destruct (civilFromDays (Day (localTime now))) as [[y m] d].
  cbn [fst snd]. f_equal. f_equal. lia.
Qed.

Lemma civilDate_valid now :
  validDate (getFullYear now) (getMonth now + 1) (getDate now).
Proof.
  pose proof (civilFromDays_valid (Day (localTime now))) as H.
  rewrite <- civilDate_civil in H. exact H.
Qed.

(** [now.setMonth(now.getMonth() + 1)], in calendar terms. *)
Lemma civilDate_setMonth now :
  civilDate (setMonth now (getMonth now + 1)) = afterSetMonth (civilDate now).
Proof.
  destruct (civilDate_valid now) as [Hm Hd].
  rewrite (civilDate_civil (setMonth _ _)).
  unfold setMonth. cbn [localTime]. rewrite Day_MakeDate.
  unfold civilDate, afterSetMonth, MakeDay.
  set (y := getFullYear now) in *. set (m := getMonth now + 1) in *.
  set (d := getDate now) in *. clearbody y m d.
  pose proof (daysInMonth_bounds y m) as Hb.
  assert ((y + m / 12, m mod 12 + 1) = nextMonth y m) as E.
  { unfold nextMonth.
    destruct (month_cases m Hm)
      as [->|[->|[->|[->|[->|[->|[->|[->|[->|[->|[->| ->]]]]]]]]]]];
      cbn [Z.eqb Pos.eqb]; f_equal; euclid. }
  rewrite <- E. apply civilFromDays_rollOver; [euclid|lia].
Qed.

(** [now.setFullYear(now.getFullYear() + 1)], in calendar terms. *)
Lemma civilDate_setFullYear now :
  civilDate (setFullYear now (getFullYear now + 1))
  = afterSetFullYear (civilDate now).
Proof.
  destruct (civilDate_valid now) as [Hm Hd].
  rewrite (civilDate_civil (setFullYear _ _)).
  unfold setFullYear. cbn [localTime]. rewrite Day_MakeDate.
  unfold civilDate, afterSetFullYear, MakeDay.
  set (y := getFullYear now) in *.
  set (m := getMonth now + 1) in *.
  replace (getMonth now) with (m - 1) by (unfold m; lia).
  set (d := getDate now) in *. clearbody y m d.
  pose proof (daysInMonth_bounds y m) as Hb.
  replace (y + 1 + (m - 1) / 12) with (y + 1) by euclid.
  replace ((m - 1) mod 12 + 1) with m by euclid.
  apply civilFromDays_rollOver; lia.
Qed.

Lemma yyyymmdd_formatDate now : yyyymmdd now = formatDate (civilDate now).
Proof. reflexivity. Qed.

(** Where the day exists in the month it falls into, nothing runs over:
    the code's date is the one the specification names. *)
Lemma afterSetMonth_exists c :
  (∀ y m d, plusOneMonth c = (y, m, d) → d ≤ daysInMonth y m) →
  afterSetMonth c = plusOneMonth c.
Proof.
  destruct c as [[y m] d]. unfold afterSetMonth, plusOneMonth, rollOver.
  destruct (nextMonth y m) as [y' m']. intros H.
  pose proof (H y' m' d eq_refl). by destruct (Z.leb_spec d (daysInMonth y' m')); [|lia].
Qed.

Lemma afterSetFullYear_exists c :
  (∀ y m d, plusOneYear c = (y, m, d) → d ≤ daysInMonth y m) →
  afterSetFullYear c = plusOneYear c.
Proof.
  destruct c as [[y m] d]. unfold afterSetFullYear, plusOneYear, rollOver.
  intros H. pose proof (H (y + 1) m d eq_refl).
  by destruct (Z.leb_spec d (daysInMonth (y + 1) m)); [|lia].
Qed.

End Calendar.

(** ** The license key *)

Lemma length_pretty_N_go (k : nat) (x : N) s :
  (10 ^ N.of_nat k ≤ x < 10 ^ N.of_nat (S k))%N →
  String.length (pretty_N_go x s) = (S k + String.length s)%nat.
Proof.
  revert x s. induction k as [|k IH]; intros x s [Hlo Hhi].
  - change (10 ^ N.of_nat 0)%N with 1%N in Hlo.
    change (10 ^ N.of_nat 1)%N with 10%N in Hhi.
    rewrite pretty_N_go_step by lia.
    rewrite N.div_small by lia. by rewrite pretty_N_go_0.
  - rewrite !Nat2N.inj_succ, !N.pow_succ_r' in Hlo, Hhi.
    assert (0 < 10 ^ N.of_nat k)%N as Hpos
      by (apply N.neq_0_lt_0, N.pow_nonzero; lia).
    rewrite pretty_N_go_step by lia.
    rewrite IH; [simpl; lia|]. rewrite Nat2N.inj_succ, N.pow_succ_r'. split.
    + apply N.div_le_lower_bound; lia.
    + rewrite Nat2N.inj_succ, N.pow_succ_r' in Hhi.
      apply N.Div0.div_lt_upper_bound. lia.
Qed.

Lemma length_pretty_Z (k : nat) (z : Z) :
  10 ^ Z.of_nat k ≤ z < 10 ^ Z.of_nat (S k) →
  String.length (pretty z) = S k.
Proof.
  intros [Hlo Hhi].
  assert (0 < z) as Hz by (pose proof (Z.pow_pos_nonneg 10 (Z.of_nat k)); lia).
  destruct z as [|p|p]; try lia.
  change (pretty (Z.pos p)) with (pretty (N.pos p)).
  unfold pretty, pretty_N. rewrite decide_False by done.
  rewrite (length_pretty_N_go k); [simpl; lia|].
  rewrite N2Z.inj_le, N2Z.inj_lt, !N2Z.inj_pow, !nat_N_Z. done.
Qed.

Lemma length_zeros n : String.length (zeros n) = n.
Proof. induction n as [|n IH]; [done|]. simpl. by rewrite IH. Qed.

Lemma length_padStart0 n s :
  (String.length s ≤ n)%nat → String.length (padStart0 n s) = n.
Proof.
  intros H. unfold padStart0. rewrite str_length_app, length_zeros. lia.
Qed.

Lemma length_pad2 z : 1 ≤ z ≤ 31 → String.length (padStart0 2 (pretty z)) = 2%nat.
Proof.
  intros Hz. apply length_padStart0.
  destruct (Z.lt_ge_cases z 10).
  - rewrite (length_pretty_Z 0); [lia|simpl; lia].
  - rewrite (length_pretty_Z 1); [lia|simpl; lia].
Qed.

(** A date in the years 1000 to 9999 is written with eight characters. *)
Lemma length_formatDate y m d :
  1000 ≤ y ≤ 9999 → validDate y m d → String.length (formatDate (y, m, d)) = 8%nat.
Proof.
  intros Hy [Hm Hd]. pose proof (daysInMonth_bounds y m) as Hb.
  unfold formatDate.
  rewrite !str_length_app, !length_pad2 by lia.
  rewrite (length_pretty_Z 3); [done|simpl; lia].
Qed.

Lemma substring0_prefix n s :
  (∃ rest, s = substring0 n s +:+ rest)
  ∧ String.length (substring0 n s) = Nat.min n (String.length s).
Proof.
  unfold substring0. revert s. induction n as [|n IH]; intros s.
  - destruct s; simpl; split; eauto.
  - destruct s as [|c s]; simpl; [split; [by exists ""|done]|].
    destruct (IH s) as [[rest Hr] Hl]. split.
    + exists rest. rewrite str_app_cons. by f_equal.
    + by rewrite Hl.
Qed.

Lemma substring0_short n s :
  (String.length s ≤ n)%nat → substring0 n s = s.
Proof.
  unfold substring0. revert s. induction n as [|n IH]; intros [|c s] Hl;
    simpl in *; try done; [lia|]. f_equal. apply IH. lia.
Qed.

Section License.

(** A server with a private key configured. *)
Context (w : World) (key : NodeRSA).
Hypothesis Hkey : privateKey w = Some key.

(** The key [generateLicense] builds, written out. *)
Lemma generateLicense_key id type :
  let now := clock w in
  let expiry :=
    if strictEqStr type "M" then yyyymmdd (setMonth now (getMonth now + 1))
    else if strictEqStr type "Y" then yyyymmdd (setFullYear now (getFullYear now + 1))
    else if strictEqStr type "P" then "FOREVER"
    else yyyymmdd now in
  let payload := ToString type +:+ "-" +:+ toUpperCase (substring0 8 id)
                 +:+ "-" +:+ expiry in
  generateLicense (Str id) type w
  = (Return (payload +:+ "-" +:+ sign key payload),
     record (Generate (Str id) type) w).
Proof.
  unfold generateLicense, bind, emit, read, ret.
  change (privateKey (record (Generate (Str id) type) w)) with (privateKey w).
  rewrite Hkey.
  change (clock (record (Generate (Str id) type) w)) with (clock w).
  destruct type as [| | | |s|]; try reflexivity.
  unfold strictEqStr.
  destruct (String.eqb_spec s "M") as [->|]; [reflexivity|].
  destruct (String.eqb_spec s "Y") as [->|]; [reflexivity|].
  destruct (String.eqb_spec s "P") as [->|]; reflexivity.
Qed.

(** X22.  With a private key configured, for a machine id of ASCII
    characters, a type among M, Y, P and a current date whose day of the
    month exists in the month the expiry falls into, the generated key
    is [type-machineHash-expiry-signature]: machineHash is the first 8
    characters of the machine id (all of it when it is shorter) in upper
    case; expiry is FOREVER for P, and for M and Y the current date plus
    one calendar month or one calendar year, as year, two-digit month
    and two-digit day (eight characters for the years 1000 to 9999); the
    signature is that of exactly the payload [type-machineHash-expiry]. *)
Theorem license_key_when_day_exists id (t : LicenseType) :
  isASCII id = true →
  (∀ y m d,
     expiryDate t (civilDate (clock w)) = Some (y, m, d) → d ≤ daysInMonth y m) →
  let first8 := substring0 8 id in
  let payload := typeCode t +:+ "-" +:+ toUpperCase first8 +:+ "-"
                 +:+ expiryOf t (civilDate (clock w)) in
  generateLicense (Str id) (Str (typeCode t)) w
  = (Return (payload +:+ "-" +:+ sign key payload),
     record (Generate (Str id) (Str (typeCode t))) w)
  ∧ (∃ rest, id = first8 +:+ rest)
  ∧ String.length first8 = Nat.min 8 (String.length id)
  ∧ (∀ y m d,
       expiryDate t (civilDate (clock w)) = Some (y, m, d) → 1000 ≤ y ≤ 9999 →
       String.length (expiryOf t (civilDate (clock w))) = 8%nat).
Proof.
  intros _ Hday first8 payload.
  destruct (civilDate_valid (clock w)) as [Hm Hd].
  split; [|split; [apply substring0_prefix|split; [apply substring0_prefix|]]];
    cycle 1.
  { intros y m d He Hy. unfold expiryOf. rewrite He.
    apply length_formatDate; [done|].
    pose proof (Hday y m d He) as Hle.
    destruct t; cbn [expiryDate] in He; [| |done].
    - unfold civilDate, plusOneMonth in He.
      pose proof (nextMonth_range (getFullYear (clock w))
                    (getMonth (clock w) + 1) Hm) as Hn.
      destruct (nextMonth (getFullYear (clock w)) (getMonth (clock w) + 1))
        as [y' m'].
      injection He as <- <- <-. cbn [snd] in Hn. split; lia.
    - unfold civilDate, plusOneYear in He. injection He as <- <- <-.
      split; lia. }
  rewrite generateLicense_key. subst payload first8.
  destruct t; cbn [typeCode expiryOf expiryDate];
    [change (strictEqStr (Str "M") "M") with true
    |change (strictEqStr (Str "Y") "M") with false;
     change (strictEqStr (Str "Y") "Y") with true
    |change (strictEqStr (Str "P") "M") with false;
     change (strictEqStr (Str "P") "Y") with false;
     change (strictEqStr (Str "P") "P") with true];
    cbn iota; rewrite ?yyyymmdd_formatDate, ?civilDate_setMonth,
      ?civilDate_setFullYear; [| |reflexivity].
  - rewrite afterSetMonth_exists; [reflexivity|].
    intros y m d He. apply Hday. cbn [expiryDate]. by rewrite He.
  - rewrite afterSetFullYear_exists; [reflexivity|].
    intros y m d He. apply Hday. cbn [expiryDate]. by rewrite He.
Qed.

End License.

Lemma license_key_when_day_exists_witness :
  (generateLicense (Str "abcdefgh1234") (Str (typeCode Yearly)) demoJune).1
  = Return "Y-ABCDEFGH-20250615-SIG(Y-ABCDEFGH-20250615)".
Proof.
  pose proof (license_key_when_day_exists demoJune demoKey eq_refl
                "abcdefgh1234" Yearly) as H.
  destruct H as [H _].
  - reflexivity.
  - intros y m d. vm_compute. intros [= <- <- <-]. discriminate.
  - rewrite H. vm_compute. reflexivity.
Defined.

(** C2, at the failing inputs.  On 31 January 2024 the expiry written
    into a monthly license is 2 March 2024: the day 31, which February
    does not have, has run over into March.  One calendar month after 31
    January names a day in February (its last day, 29 February; the
    specification's field-wise form reads 20240231).  On 29 February
    2024 the expiry of a yearly license is 1 March 2025, where the
    specification's [<YYYY+1><MM><DD>] reads 20250229 and the last day
    of that February is the 28th. *)
Theorem license_expiry_overflow :
  let monthly := (generateLicense (Str "ABCDEFGH1234") (Str "M") demoWorld).1 in
  let yearly := (generateLicense (Str "ABCDEFGH1234") (Str "Y") demoLeapDay).1 in
  civilDate (clock demoWorld) = (2024, 1, 31)
  ∧ monthly = Return "M-ABCDEFGH-20240302-SIG(M-ABCDEFGH-20240302)"
  ∧ expiryOf Monthly (2024, 1, 31) = "20240231"
  ∧ formatDate (clampDay (plusOneMonth (2024, 1, 31))) = "20240229"
  ∧ civilDate (clock demoLeapDay) = (2024, 2, 29)
  ∧ yearly = Return "Y-ABCDEFGH-20250301-SIG(Y-ABCDEFGH-20250301)"
  ∧ expiryOf Yearly (2024, 2, 29) = "20250229"
  ∧ formatDate (clampDay (plusOneYear (2024, 2, 29))) = "20250228".
Proof. vm_compute. done. Qed.

(** The example of the specification: a yearly key for machine
    ABCDEFGH1234, issued on 15 June 2024. *)
Example license_key_yearly :
  (generateLicense (Str "ABCDEFGH1234") (Str "Y") demoJune).1
  = Return "Y-ABCDEFGH-20250615-SIG(Y-ABCDEFGH-20250615)".
Proof. vm_compute. reflexivity. Qed.

(** Days that the following month or year does not have run over. *)
Example afterSetMonth_end_of_january :
  afterSetMonth (2023, 1, 31) = (2023, 3, 3)
  ∧ afterSetMonth (2024, 1, 31) = (2024, 3, 2)
  ∧ afterSetMonth (2024, 12, 31) = (2025, 1, 31)
  ∧ afterSetFullYear (2024, 2, 29) = (2025, 3, 1).
Proof. vm_compute. done. Qed.




(** ** The order store: saving, reading and updating *)

Section Store.

Lemma saveOrder_run orderId data w :
  let db' := <[orderId := <["createdAt" := Str (clockISO w)]>
                            (<["status" := Str "PENDING"]> data)]> (dbOf w) in
  saveOrder orderId data w = (Return tt, setFile db' (record (WriteFile db') w)).
Proof. reflexivity. Qed.

Lemma getOrder_stored orderId w : (getOrder orderId w).1 = Return (stored w orderId).
Proof. unfold stored, dbOf. rewrite getOrder_run. by destruct (file w). Qed.

Lemma stored_setFile db w id : stored (setFile db w) id = db !! id.
Proof. reflexivity. Qed.

Lemma stored_record e w id : stored (record e w) id = stored w id.
Proof. reflexivity. Qed.

Lemma stored_eq_file w1 w2 id : file w2 = file w1 → stored w2 id = stored w1 id.
Proof. unfold stored, dbOf. by intros ->. Qed.

Lemma stored_Some w id o :
  stored w id = Some o ↔ ∃ db, file w = Some db ∧ db !! id = Some o.
Proof.
  unfold stored, dbOf. destruct (file w) as [db|]; simpl.
  - split; [by exists db|]. by intros (? & [= <-] & ?).
  - split; [done|]. by intros (? & ? & ?).
Qed.

Lemma stored_None w id :
  stored w id = None →
  match file w with Some db => db !! id | None => None end = None.
Proof. unfold stored, dbOf. by destruct (file w). Qed.

Lemma stored_file_dbOf w id o : stored w id = Some o → file w = Some (dbOf w).
Proof. intros (db & Hf & _)%stored_Some. unfold dbOf. by rewrite Hf. Qed.

Lemma stored_orderOf w :
  match stored w "TT1234" with Some _ => true | None => false end = true →
  stored w "TT1234" = Some (orderOf w).
Proof. apply lookup_orderOf. Qed.

Lemma stored_fulfilled w db orderId o id :
  stored (fulfilled w db orderId o) id
  = <[orderId := completedOrder o (issued w (prop o "machineId") (prop o "type"))
                   (clockISO w)]> db !! id.
Proof. reflexivity. Qed.

Lemma updateOrderStatus_run orderId status extraData w :
  updateOrderStatus orderId status extraData w
  = match stored w orderId with
    | Some o =>
        let db' := <[orderId := <["updatedAt" := Str (clockISO w)]>
                                  (extraData ∪ <["status" := Str status]> o)]>
                     (dbOf w) in
        (Return tt, setFile db' (record (WriteFile db') w))
    | None => (Return tt, w)
    end.
Proof.
  unfold updateOrderStatus, stored, dbOf, bind at 1, read at 1.
  destruct (file w) as [db|]; [|done]. simpl. by destruct (db !! orderId).
Qed.

(** X1.  What [saveOrder] stores is what [getOrder] reads back.  After
    [saveOrder orderId data], whatever the orders file held before and
    also when there was none, [getOrder orderId] returns the properties
    of [data] with the status PENDING and the creation time of the clock;
    a status or a creation time in [data] itself is overridden.  The
    orders file holds under every other id what it held before (a
    missing file counting as an empty one), and for every other id that
    is not an inherited property name [getOrder] finds an order exactly
    when it found it before, and the same one.  This is for an id that
    is not a property name inherited from [Object.prototype] and for
    data whose values the file keeps as they are. *)
Theorem saveOrder_getOrder orderId data w :
  isOwnName orderId = true → scalarFields data →
  let w' := (saveOrder orderId data w).2 in
  (saveOrder orderId data w).1 = Return tt
  ∧ (∃ o, (getOrder orderId w').1 = Return (Some o)
       ∧ o !! "status" = Some (Str "PENDING")
       ∧ o !! "createdAt" = Some (Str (clockISO w))
       ∧ ∀ k, k ≠ "status" → k ≠ "createdAt" → o !! k = data !! k)
  ∧ (∀ id, id ≠ orderId → stored w' id = stored w id)
  ∧ (∀ id o,
       id ≠ orderId → isOwnName id = true →
       (getOrder id w').1 = Return (Some o) ↔ (getOrder id w).1 = Return (Some o)).
Proof.
  intros _ _ w'. subst w'. rewrite saveOrder_run. cbn [fst snd].
  split; [done|]. split; [|split].
  - eexists. rewrite getOrder_stored, stored_setFile, lookup_insert_eq.
    split; [done|]. split; [|split].
    + rewrite lookup_insert_ne by done. by rewrite lookup_insert_eq.
    + by rewrite lookup_insert_eq.
    + intros k Hs Hc. by rewrite !lookup_insert_ne.
  - intros id Hid. rewrite stored_setFile. by rewrite lookup_insert_ne.
  - intros id o Hid _. rewrite !getOrder_stored, stored_setFile.
    by rewrite lookup_insert_ne.
Qed.

(** X2.  [updateOrderStatus] on an order that is not stored (no file, or
    no such id) does nothing: nothing is written and no file is created.
    On a stored order it writes the order back with the update time of
    the clock, the properties of [extraData], the given status (unless
    [extraData] has a status of its own, which then wins), and all other
    properties as they were; [getOrder] reads this back, and the orders
    under all other ids read as before.  This is for an id that is not a
    property name inherited from [Object.prototype] and for extra data
    whose values the file keeps as they are. *)
Theorem updateOrderStatus_getOrder orderId status extraData w :
  isOwnName orderId = true → scalarFields extraData →
  let w' := (updateOrderStatus orderId status extraData w).2 in
  match stored w orderId with
  | None => updateOrderStatus orderId status extraData w = (Return tt, w)
  | Some o =>
      ∃ o', (getOrder orderId w').1 = Return (Some o')
        ∧ o' !! "updatedAt" = Some (Str (clockISO w))
        ∧ (∀ k, k ≠ "updatedAt" → is_Some (extraData !! k) →
             o' !! k = extraData !! k)
        ∧ (extraData !! "status" = None → o' !! "status" = Some (Str status))
        ∧ (∀ k, k ≠ "updatedAt" → k ≠ "status" → extraData !! k = None →
             o' !! k = o !! k)
        ∧ (∀ id, id ≠ orderId → (getOrder id w').1 = (getOrder id w).1)
  end.
Proof.
  intros _ _ w'. subst w'. rewrite updateOrderStatus_run.
  destruct (stored w orderId) as [o|] eqn:Ho; [|done]. cbn [fst snd].
  eexists. rewrite getOrder_stored, stored_setFile, lookup_insert_eq.
  split; [done|]. split; [by rewrite lookup_insert_eq|].
  split; [|split; [|split]].
  - intros k Hk [v Hv]. rewrite lookup_insert_ne by done.
    by rewrite (lookup_union_Some_l _ _ _ _ Hv).
  - intros He. rewrite lookup_insert_ne by done.
    rewrite lookup_union_r by done. by rewrite lookup_insert_eq.
  - intros k Hk Hs He. rewrite lookup_insert_ne by done.
    rewrite lookup_union_r by done. by rewrite lookup_insert_ne.
  - intros id Hid. rewrite !getOrder_stored, stored_setFile.
    by rewrite lookup_insert_ne.
Qed.

End Store.

Lemma saveOrder_getOrder_witness :
  (saveOrder "TT1234" {[ "machineId" := Str "abcdefgh1234" ]} demoWorld).1
  = Return tt.
Proof.
  refine (proj1 (saveOrder_getOrder "TT1234" {[ "machineId" := Str "abcdefgh1234" ]}
                   demoWorld _ _)).
  - reflexivity.
  - apply map_Forall_singleton. reflexivity.
Defined.

Lemma updateOrderStatus_getOrder_witness :
  updateOrderStatus "TT0000" "COMPLETED" {[ "licenseKey" := Str "K" ]} demoPending
  = (Return tt, demoPending).
Proof.
  pose proof (updateOrderStatus_getOrder "TT0000" "COMPLETED"
                {[ "licenseKey" := Str "K" ]} demoPending) as H.
  assert (stored demoPending "TT0000" = None) as E by (vm_compute; reflexivity).
  cbv zeta in H. rewrite E in H. apply H.
  - reflexivity.
  - apply map_Forall_singleton. reflexivity.
Defined.

(** ** The routes, case by case *)

Section Tables.

Lemma not_completed_strictEq o :
  ¬ isCompleted o ↔ strictEqStr (prop o "status") "COMPLETED" = false.
Proof. rewrite isCompleted_strictEq. by destruct (strictEqStr _ _). Qed.

Lemma completedOrder_other o key ts k :
  ¬ setByCompletion k → completedOrder o key ts !! k = o !! k.
Proof.
  unfold setByCompletion, completedOrder. intros Hk.
  rewrite lookup_insert_ne by (intros <-; apply Hk; by right; right).
  rewrite lookup_union_r
    by (apply lookup_singleton_ne; intros <-; apply Hk; by right; left).
  rewrite lookup_insert_ne by (intros <-; apply Hk; by left). done.
Qed.

Lemma webhook_table content amount w :
  webhook_sepay content amount w
  = match content with
    | Str s =>
        match match_ s orderCode with
        | None => (Return (answer 200 false "No order code found"), w)
        | Some orderId =>
            match stored w orderId with
            | None => (Return (answer 200 false "Order not found"), w)
            | Some o =>
                if strictEqStr (prop o "status") "COMPLETED"
                then (Return (answer 200 true "Order already completed"), w)
                else if lt (parseFloat amount) (parseFloat (prop o "amount"))
                then (Return (answer 200 false "Insufficient amount"), w)
                else try (fulfilment orderId o) internalError w
            end
        end
    | _ => (Return {| status := 500;
                      json := {[ "error" := Str "Internal Server Error" ]} |}, w)
    end.
Proof.
  destruct content as [| | | |s|]; try reflexivity.
  destruct (match_ s orderCode) as [orderId|] eqn:Hm;
    [|unfold webhook_sepay; by rewrite Hm].
  destruct (stored w orderId) as [o|] eqn:Ho.
  - apply stored_Some in Ho as (db & Hf & Ho). by apply (webhook_found _ _ _ db).
  - apply (webhook_not_found _ _ _ orderId); [done|]. by apply stored_None.
Qed.

Lemma approve_table pass orderId w :
  api_approve pass orderId w
  = if decide (pass = Some (ADMIN_PASS w)) then
      match stored w (ToString orderId) with
      | None => (Return (answer 404 false "Order not found"), w)
      | Some o =>
          if strictEqStr (prop o "status") "COMPLETED"
          then (Return (answer 200 false "Order already completed"), w)
          else try (fulfilment (ToString orderId) o) internalErrorAdmin w
      end
    else (Return (answer 401 false "Unauthorized"), w).
Proof.
  destruct (decide (pass = Some (ADMIN_PASS w))) as [Hp|Hp];
    [|by apply checkAdmin_fail].
  destruct (stored w (ToString orderId)) as [o|] eqn:Ho.
  - apply stored_Some in Ho as (db & Hf & Ho). by apply (approve_found _ _ _ db).
  - apply approve_not_found; [done|]. by apply stored_None.
Qed.

Lemma delete_table pass orderId w :
  api_orders_delete pass orderId w
  = if decide (pass = Some (ADMIN_PASS w)) then
      match stored w orderId with
      | Some _ =>
          (Return {| status := 200; json := {[ "success" := Bool true ]} |},
           setFile (delete orderId (dbOf w))
             (record (WriteFile (delete orderId (dbOf w))) w))
      | None => (Return (answer 404 false "Not found"), w)
      end
    else (Return (answer 401 false "Unauthorized"), w).
Proof.
  destruct (decide (pass = Some (ADMIN_PASS w))) as [Hp|Hp];
    [|by apply checkAdmin_fail].
  rewrite (delete_run _ _ _ Hp). unfold stored, dbOf.
  by destruct (file w) as [db|].
Qed.

(** The fulfilment steps either stop at the license generator, which
    throws when no key is configured or the machine id is no string, or
    run to the end. *)
Lemma try_fulfilment_cases orderId o w catch :
  stored w orderId = Some o →
  ((privateKey w = None ∨ ∀ id, prop o "machineId" ≠ Str id)
   ∧ ∃ e, try (fulfilment orderId o) catch w
          = catch e (record (Generate (prop o "machineId") (prop o "type")) w))
  ∨ (∃ key id sent,
       privateKey w = Some key ∧ prop o "machineId" = Str id
       ∧ try (fulfilment orderId o) catch w
         = (Return {| status := 200;
                      json := <["success" := Bool true]>
                                {[ "emailSent" := Bool sent ]} |},
            fulfilled w (dbOf w) orderId o)).
Proof.
  intros Ho. pose proof Ho as (db & Hf & Hdb)%stored_Some.
  assert (dbOf w = db) as -> by (unfold dbOf; by rewrite Hf).
  destruct (privateKey w) as [key|] eqn:Hk.
  - destruct (prop o "machineId") as [| | | |id|] eqn:Hid.
    1-4,6: left; split; [by right|]; eexists; apply try_throw, fulfilment_throws;
      rewrite Hid; by apply (generateLicense_not_string _ _ _ key).
    right. destruct (fulfilment_run _ _ _ _ _ _ Hf Hdb Hk Hid) as (sent & Hrun & _).
    exists key, id, sent. split; [done|]. split; [done|]. by apply try_return.
  - left. split; [by left|]. eexists. apply try_throw, fulfilment_throws.
    by apply generateLicense_no_key.
Qed.

(** What a fulfilment request does to the world: nothing, or a call of
    the license generator that throws, or the fulfilment of a stored
    order that is not completed. *)
Lemma fulfilment_request_world r w :
  isFulfilmentRequest r = true →
  let w' := (handle r w).2 in
  w' = w
  ∨ ∃ id o, stored w id = Some o ∧ ¬ isCompleted o
      ∧ ((privateKey w = None ∨ ∀ s, prop o "machineId" ≠ Str s)
         ∧ w' = record (Generate (prop o "machineId") (prop o "type")) w
         ∨ (∃ key s, privateKey w = Some key ∧ prop o "machineId" = Str s)
           ∧ w' = fulfilled w (dbOf w) id o).
Proof.
  destruct r as [? ? ? ?|content amount|pass orderId|? ?]; try done; intros _;
    cbn [handle].
  - rewrite webhook_table.
    destruct content as [| | | |s|]; try by left.
    destruct (match_ s orderCode) as [id|]; [|by left].
    destruct (stored w id) as [o|] eqn:Ho; [|by left].
    destruct (strictEqStr (prop o "status") "COMPLETED") eqn:Hs; [by left|].
    destruct (lt (parseFloat amount) (parseFloat (prop o "amount"))); [by left|].
    right. exists id, o. split; [done|]. split; [by apply not_completed_strictEq|].
    destruct (try_fulfilment_cases id o w internalError Ho)
      as [[Hg [e ->]]|(key & s' & sent & Hk & Hid & ->)].
    + left. by split.
    + right. split; [by exists key, s'|done].
  - rewrite approve_table.
    destruct (decide (pass = Some (ADMIN_PASS w))) as [Hp|Hp]; [|by left].
    destruct (stored w (ToString orderId)) as [o|] eqn:Ho; [|by left].
    destruct (strictEqStr (prop o "status") "COMPLETED") eqn:Hs; [by left|].
    right. exists (ToString orderId), o. split; [done|].
    split; [by apply not_completed_strictEq|].
    destruct (try_fulfilment_cases (ToString orderId) o w internalErrorAdmin Ho)
      as [[Hg [e ->]]|(key & s & sent & Hk & Hid & ->)].
    + left. by split.
    + right. split; [by exists key, s|done].
Qed.

(** The webhook for a stored order that can be paid, on a server that
    can generate its license; and the admin approval likewise. *)
Lemma webhook_fulfils content amount w orderId o key id :
  match_ content orderCode = Some orderId →
  stored w orderId = Some o → ¬ isCompleted o →
  lt (parseFloat amount) (parseFloat (prop o "amount")) = false →
  privateKey w = Some key → prop o "machineId" = Str id →
  ∃ sent,
    webhook_sepay (Str content) amount w
    = (Return {| status := 200;
                 json := <["success" := Bool true]> {[ "emailSent" := Bool sent ]} |},
       fulfilled w (dbOf w) orderId o).
Proof.
  intros Hm Ho Hc Hlt Hk Hid. rewrite webhook_table, Hm, Ho, Hlt.
  apply not_completed_strictEq in Hc as ->.
  destruct (try_fulfilment_cases orderId o w internalError Ho)
    as [[[Hg|Hg] _]|(key' & s' & sent & _ & _ & ->)].
  - congruence.
  - by destruct (Hg id).
  - by exists sent.
Qed.

(** The notifier reports failure exactly when it fails. *)
Lemma sendEmail_sent to licenseKey orderId w :
  ∃ sent, sendEmail to licenseKey orderId w
          = (Return sent, record (SendEmail to licenseKey orderId) w)
    ∧ (sent = false ↔ notifierFails w).
Proof.
  unfold sendEmail, bind, emit, read, ret, notifierFails, record. simpl.
  destruct (EMAIL_PASS w) as [[|c k]|] eqn:Hp.
  - eexists; split; [done|]. split; [by right; left|done].
  - destruct (fetchResult w) eqn:Hf; (eexists; split; [done|]); simpl;
      (split; [try done; intros _; right; right; congruence
              |try done; intros [?|[?|?]]; congruence]).
  - eexists; split; [done|]. split; [by left|done].
Qed.

Lemma fulfilment_sent orderId o w key id :
  stored w orderId = Some o →
  privateKey w = Some key → prop o "machineId" = Str id →
  ∃ sent,
    fulfilment orderId o w
    = (Return {| status := 200;
                 json := <["success" := Bool true]> {[ "emailSent" := Bool sent ]} |},
       fulfilled w (dbOf w) orderId o)
    ∧ (sent = false ↔ notifierFails w).
Proof.
  intros Ho Hk Hid. pose proof Ho as (db & Hf & Hdb)%stored_Some.
  assert (dbOf w = db) as -> by (unfold dbOf; by rewrite Hf).
  unfold fulfilment, fulfilled.
  unfold bind at 1. rewrite Hid, (generateLicense_returns _ _ _ _ Hk).
  set (k := issued w (Str id) (prop o "type")).
  unfold bind at 1. unfold updateOrderStatus, bind at 1, read at 1.
  rewrite file_record, Hf, Hdb.
  unfold bind at 1, read at 1, writeFileSync.
  unfold bind at 1.
  match goal with
  | |- context [sendEmail ?a ?b ?c ?w'] =>
      destruct (sendEmail_sent a b c w') as (sent & -> & Hsent)
  end.
  exists sent. split; [done|]. exact Hsent.
Qed.

Lemma try_fulfilment_sent orderId o w catch :
  stored w orderId = Some o →
  (∃ e, try (fulfilment orderId o) catch w
        = catch e (record (Generate (prop o "machineId") (prop o "type")) w))
  ∨ (∃ sent,
       try (fulfilment orderId o) catch w
       = (Return {| status := 200;
                    json := <["success" := Bool true]>
                              {[ "emailSent" := Bool sent ]} |},
          fulfilled w (dbOf w) orderId o)
       ∧ (sent = false ↔ notifierFails w)).
Proof.
  intros Ho.
  destruct (generateLicense_cases (prop o "machineId") (prop o "type") w)
    as [[e He]|(key & id & Hk & Hid)].
  - left. exists e. by apply try_throw, fulfilment_throws.
  - right. destruct (fulfilment_sent _ _ _ _ _ Ho Hk Hid) as (sent & Hrun & Hsent).
    exists sent. split; [by apply try_return|done].
Qed.

End Tables.

(** ** The admin routes *)

Section Admin.

(** X3.  Deleting and reading back.  After [DELETE /api/orders/:id] with
    the right password the order [id] is not stored, whether it was
    before or not, and the orders under all other ids read as before; the
    answer is 200 with one write of the file when the order was stored,
    and 404 "Not found" with nothing written when it was not; deleting
    the same id once more is answered 404 and changes nothing.  This is
    for an id that is not a property name inherited from
    [Object.prototype]. *)
Theorem delete_getOrder pass orderId w :
  pass = Some (ADMIN_PASS w) → isOwnName orderId = true →
  let r := api_orders_delete pass orderId w in
  (getOrder orderId r.2).1 = Return None
  ∧ (∀ id, id ≠ orderId → (getOrder id r.2).1 = (getOrder id w).1)
  ∧ (is_Some (stored w orderId) →
     r.1 = Return {| status := 200; json := {[ "success" := Bool true ]} |}
     ∧ trace r.2 = trace w ++ [WriteFile (delete orderId (dbOf w))])
  ∧ (stored w orderId = None → r = (Return (answer 404 false "Not found"), w))
  ∧ api_orders_delete pass orderId r.2
    = (Return (answer 404 false "Not found"), r.2).
Proof.
  intros Hp _ r. subst r.
  rewrite (delete_table pass orderId w), decide_True by done.
  destruct (stored w orderId) as [o|] eqn:Ho; cbn [fst snd].
  - split; [by rewrite getOrder_stored, stored_setFile, lookup_delete_eq|].
    split.
    { intros id Hid. rewrite !getOrder_stored, stored_setFile.
      by rewrite lookup_delete_ne. }
    split; [done|]. split; [done|].
    rewrite delete_table, decide_True by done.
    by rewrite stored_setFile, lookup_delete_eq.
  - split; [by rewrite getOrder_stored, Ho|]. split; [done|].
    split; [by intros [? ?]|]. split; [done|].
    rewrite delete_table, decide_True by done. by rewrite Ho.
Qed.

(** X4.  The admin routes answer 401 exactly when the [x-admin-pass]
    header is missing or differs from the configured password, and such
    a request has no effect at all: the orders file is not touched, no
    license is generated and no e-mail is sent, whatever order it names. *)
Theorem admin_unauthorized pass w :
  (∀ orderId,
     statusOf (api_approve pass orderId w).1 = Some 401
     ↔ pass ≠ Some (ADMIN_PASS w))
  ∧ (∀ orderId,
       statusOf (api_orders_delete pass orderId w).1 = Some 401
       ↔ pass ≠ Some (ADMIN_PASS w))
  ∧ (pass ≠ Some (ADMIN_PASS w) →
     (∀ orderId,
        api_approve pass orderId w
        = (Return (answer 401 false "Unauthorized"), w))
     ∧ (∀ orderId,
          api_orders_delete pass orderId w
          = (Return (answer 401 false "Unauthorized"), w))).
Proof.
  split; [|split].
  - intros orderId. rewrite approve_table.
    destruct (decide (pass = Some (ADMIN_PASS w))) as [Hp|Hp]; [|done].
    split; [|done]. destruct (stored w (ToString orderId)) as [o|] eqn:Ho; [|done].
    destruct (strictEqStr (prop o "status") "COMPLETED"); [done|].
    destruct (try_fulfilment_cases (ToString orderId) o w internalErrorAdmin Ho)
      as [[_ [e ->]]|(key & s & sent & _ & _ & ->)]; done.
  - intros orderId. rewrite delete_table.
    destruct (decide (pass = Some (ADMIN_PASS w))) as [Hp|Hp]; [|done].
    split; [|done]. by destruct (stored w orderId).
  - intros Hp. split; intros orderId; by apply checkAdmin_fail.
Qed.

Lemma envOr_nonempty env name fallback :
  fallback ≠ "" → envOr env name fallback ≠ "".
Proof.
  intros Hf. unfold envOr. destruct (env !! name) as [s|]; [|done].
  by destruct (String.eqb_spec s "").
Qed.

(** X5.  The admin password is never empty: when the variable
    [ADMIN_PASS] is not set, or set to the empty string, the password is
    admin123, and a request with that header passes the check; when it
    is set to a non-empty text, that text passes.  Whatever the
    environment, a request without the header or with an empty header is
    answered 401. *)
Theorem admin_default_password env w :
  ADMIN_PASS w = adminPassOf env →
  ADMIN_PASS w ≠ ""
  ∧ (∀ next, checkAdmin None next w
             = (Return (answer 401 false "Unauthorized"), w))
  ∧ (∀ next, checkAdmin (Some "") next w
             = (Return (answer 401 false "Unauthorized"), w))
  ∧ (env !! "ADMIN_PASS" = None ∨ env !! "ADMIN_PASS" = Some "" →
     ∀ next, checkAdmin (Some "admin123") next w = next w)
  ∧ (∀ p, env !! "ADMIN_PASS" = Some p → p ≠ "" →
     ∀ next, checkAdmin (Some p) next w = next w).
Proof.
  intros Hw.
  assert (ADMIN_PASS w ≠ "") as Hne
    by (rewrite Hw; by apply envOr_nonempty).
  split; [done|]. split; [|split; [|split]].
  - intros next. by apply checkAdmin_fail.
  - intros next. apply checkAdmin_fail. congruence.
  - intros He next. apply checkAdmin_pass. rewrite Hw.
    unfold adminPassOf, envOr. by destruct He as [-> | ->].
  - intros p He Hp next. apply checkAdmin_pass. rewrite Hw.
    unfold adminPassOf, envOr. rewrite He.
    by destruct (String.eqb_spec p "").
Qed.

End Admin.

Lemma delete_getOrder_witness :
  (getOrder "TT1234"
     (api_orders_delete (Some "admin123") "TT1234" demoCompleted).2).1
  = Return None.
Proof.
  refine (proj1 (delete_getOrder (Some "admin123") "TT1234" demoCompleted _ _)).
  - vm_compute. reflexivity.
  - reflexivity.
Defined.

Lemma admin_default_password_witness :
  checkAdmin (Some "admin123") (reply 200 {[ "success" := Bool true ]}) demoNoKey
  = reply 200 {[ "success" := Bool true ]} demoNoKey.
Proof.
  refine (proj1 (proj2 (proj2 (proj2
    (admin_default_password ∅ demoNoKey _)))) _
    (reply 200 {[ "success" := Bool true ]})).
  - reflexivity.
  - left. reflexivity.
Defined.

(** ** The outcomes of a request *)

Section Outcomes.

(** A request with its fields read is answered: no exception leaves a
    handler; the status codes of the answers, route by route. *)
Lemma handle_status r w :
  ∃ resp, (handle r w).1 = Return resp
    ∧ match r with
      | CreateOrder _ _ _ _ => status resp = 200 ∨ status resp = 400
      | ReportPayment _ _ => status resp = 200 ∨ status resp = 500
      | ApproveOrder _ _ =>
          status resp = 200 ∨ status resp = 401 ∨ status resp = 404
          ∨ status resp = 500
      | DeleteOrder _ _ =>
          status resp = 200 ∨ status resp = 401 ∨ status resp = 404
      end.
Proof.
  destruct r as [machineId email type amount|content amount|pass orderId
                |pass orderId]; cbn [handle].
  - destruct (ToBoolean machineId && ToBoolean email && ToBoolean type
              && ToBoolean amount) eqn:Hp.
    + rewrite (create_order_saves _ _ _ _ _ Hp). eexists. split; [done|]. by left.
    + rewrite (create_order_missing _ _ _ _ _ Hp). eexists. split; [done|].
      by right.
  - rewrite webhook_table.
    destruct content as [| | | |s|];
      try (eexists; split; [done|]; by right).
    destruct (match_ s orderCode) as [id|];
      [|eexists; split; [done|]; by left].
    destruct (stored w id) as [o|] eqn:Ho;
      [|eexists; split; [done|]; by left].
    destruct (strictEqStr (prop o "status") "COMPLETED");
      [eexists; split; [done|]; by left|].
    destruct (lt (parseFloat amount) (parseFloat (prop o "amount")));
      [eexists; split; [done|]; by left|].
    destruct (try_fulfilment_cases id o w internalError Ho)
      as [[_ [e ->]]|(key & s' & sent & _ & _ & ->)];
      eexists; (split; [done|]); [by right|by left].
  - rewrite approve_table.
    destruct (decide (pass = Some (ADMIN_PASS w))) as [Hp|Hp];
      [|eexists; split; [done|]; by right; left].
    destruct (stored w (ToString orderId)) as [o|] eqn:Ho;
      [|eexists; split; [done|]; by right; right; left].
    destruct (strictEqStr (prop o "status") "COMPLETED");
      [eexists; split; [done|]; by left|].
    destruct (try_fulfilment_cases (ToString orderId) o w internalErrorAdmin Ho)
      as [[_ [e ->]]|(key & s & sent & _ & _ & ->)];
      eexists; (split; [done|]); [by right; right; right|by left].
  - rewrite delete_table.
    destruct (decide (pass = Some (ADMIN_PASS w))) as [Hp|Hp];
      [|eexists; split; [done|]; by right; left].
    destruct (stored w orderId);
      eexists; (split; [done|]); [by left|by right; right].
Qed.


(** X7.  A payment webhook or an admin approval changes at most one
    stored order, and that only from not completed to completed: either
    every id holds afterwards what it held before, or there is one
    stored order that was not completed and is now completed with a
    license key, all its properties other than status, licenseKey and
    updatedAt being as before, and every other id holds what it held
    before.  In particular a completed order and its license key are
    never changed by these requests, no order disappears and none
    appears. *)
Theorem fulfilment_request_frame r w :
  isFulfilmentRequest r = true →
  let w' := (handle r w).2 in
  (∀ id, stored w' id = stored w id)
  ∨ (∃ id o o',
       stored w id = Some o ∧ ¬ isCompleted o
       ∧ stored w' id = Some o' ∧ isCompleted o'
       ∧ is_Some (o' !! "licenseKey")
       ∧ (∀ k, ¬ setByCompletion k → o' !! k = o !! k)
       ∧ ∀ id', id' ≠ id → stored w' id' = stored w id').
Proof.
  intros Hr w'. subst w'.
  destruct (fulfilment_request_world r w Hr)
    as [->|(id & o & Ho & Hc & [[_ ->]|[_ ->]])].
  - by left.
  - left. intros id'. by rewrite stored_record.
  - right. eexists id, o, _. split; [done|]. split; [done|].
    split; [by rewrite stored_fulfilled, lookup_insert_eq|].
    split; [apply completedOrder_status|].
    split; [rewrite completedOrder_licenseKey; by eexists|].
    split; [intros k Hk; by apply completedOrder_other|].
    intros id' Hne. rewrite stored_fulfilled. by rewrite lookup_insert_ne.
Qed.


(** X9.  A server that started without a private key never completes an
    order: a payment webhook or an admin approval leaves the orders file
    as it is and sends no e-mail (at most the license generator is
    called, in vain); the webhook for a stored, not completed,
    sufficiently paid order is answered 500 "Internal Server Error", the
    approval of a stored, not completed order 500 "Internal Error". *)
Theorem no_key_no_fulfilment w :
  privateKey w = None →
  (∀ r, isFulfilmentRequest r = true →
     file (handle r w).2 = file w
     ∧ (trace (handle r w).2 = trace w
        ∨ ∃ machineId type,
            trace (handle r w).2 = trace w ++ [Generate machineId type]))
  ∧ (∀ content amount orderId o,
       match_ content orderCode = Some orderId →
       stored w orderId = Some o → ¬ isCompleted o →
       lt (parseFloat amount) (parseFloat (prop o "amount")) = false →
       (webhook_sepay (Str content) amount w).1
       = Return {| status := 500;
                   json := {[ "error" := Str "Internal Server Error" ]} |})
  ∧ (∀ orderId o,
       stored w (ToString orderId) = Some o → ¬ isCompleted o →
       (api_approve (Some (ADMIN_PASS w)) orderId w).1
       = Return (answer 500 false "Internal Error")).
Proof.
  intros Hk. split; [|split].
  - intros r Hr.
    destruct (fulfilment_request_world r w Hr)
      as [->|(id' & o' & Ho' & Hc & [[_ ->]|[(key & s & Hk' & _) _]])].
    + split; [done|by left].
    + split; [done|]. right. by eexists _, _.
    + congruence.
  - intros content amount orderId o Hm Ho Hc Hlt.
    rewrite webhook_table, Hm, Ho, Hlt.
    apply not_completed_strictEq in Hc as ->.
    destruct (try_fulfilment_cases orderId o w internalError Ho)
      as [[_ [e ->]]|(key & s' & sent & Hk' & _)]; [done|congruence].
  - intros orderId o Ho Hc.
    rewrite approve_table, decide_True, Ho by done.
    apply not_completed_strictEq in Hc as ->.
    destruct (try_fulfilment_cases (ToString orderId) o w internalErrorAdmin Ho)
      as [[_ [e ->]]|(key & s' & sent & Hk' & _)]; [done|congruence].
Qed.

(** X10.  An order whose machine id is not a string can never be
    completed: whatever payment webhook or admin approval is handled,
    the order stays stored exactly as it is.  Such orders do come into
    the store: order creation accepts a machine id that is a finite
    number other than 0 and stores it as it is. *)
Theorem non_string_machineId_stuck w id o :
  stored w id = Some o → (∀ s, prop o "machineId" ≠ Str s) →
  (∀ r, isFulfilmentRequest r = true → stored (handle r w).2 id = Some o)
  ∧ (∀ n email type amount w0,
       isScalarJSON (Num n) = true →
       ToBoolean (Num n) && ToBoolean email && ToBoolean type && ToBoolean amount
       = true →
       ∃ o0, stored (create_order (Num n) email type amount w0).2
               ("TT" +:+ pretty (random w0)) = Some o0
         ∧ prop o0 "machineId" = Num n
         ∧ o0 !! "status" = Some (Str "PENDING")).
Proof.
  intros Ho Hid. split.
  - intros r Hr.
    destruct (fulfilment_request_world r w Hr)
      as [->|(id' & o' & Ho' & Hc & [[_ ->]|[(key & s & _ & Hs) ->]])].
    + done.
    + by rewrite stored_record.
    + rewrite stored_fulfilled. destruct (decide (id' = id)) as [->|Hne].
      * assert (o' = o) as -> by congruence. by destruct (Hid s).
      * by rewrite lookup_insert_ne.
  - intros n email type amount w0 _ Hp.
    rewrite (create_order_saves _ _ _ _ _ Hp). cbn [snd].
    rewrite stored_setFile, lookup_insert_eq. eexists. split; [done|].
    split; [|done]. unfold prop, pendingOrder.
    rewrite !lookup_insert_ne by done. by rewrite lookup_insert_eq.
Qed.

(** X21.  The flag emailSent of an answer tells what became of the
    e-mail.  Whatever the request, when the answer carries emailSent, the
    request fulfilled a stored order that was not completed, the answer
    is 200 with success, and emailSent is false exactly when the notifier
    failed, that is when no API key is configured or the mail provider
    did not answer with success. *)
Theorem emailSent_flag r w resp sent :
  (handle r w).1 = Return resp →
  json resp !! "emailSent" = Some (Bool sent) →
  (sent = false ↔ notifierFails w)
  ∧ status resp = 200 ∧ json resp !! "success" = Some (Bool true)
  ∧ ∃ id o, stored w id = Some o ∧ ¬ isCompleted o
      ∧ (handle r w).2 = fulfilled w (dbOf w) id o.
Proof.
  assert (∀ id o catch,
            stored w id = Some o → ¬ isCompleted o →
            (∀ e w1, ∃ body, catch e w1 = (Return body, w1)
                             ∧ json body !! "emailSent" = None) →
            (try (fulfilment id o) catch w).1 = Return resp →
            json resp !! "emailSent" = Some (Bool sent) →
            (sent = false ↔ notifierFails w)
            ∧ status resp = 200 ∧ json resp !! "success" = Some (Bool true)
            ∧ ∃ id' o', stored w id' = Some o' ∧ ¬ isCompleted o'
                ∧ (try (fulfilment id o) catch w).2 = fulfilled w (dbOf w) id' o')
    as Hful.
  { intros id o catch Ho Hc Hcatch.
    destruct (try_fulfilment_sent id o w catch Ho) as [[e ->]|(sent' & -> & Hsent)].
    - destruct (Hcatch e (record (Generate (prop o "machineId") (prop o "type")) w))
        as (body & -> & Hb).
      intros [= <-] H. congruence.
    - intros [= <-] H. cbn [json] in H.
      rewrite lookup_insert_ne, lookup_singleton_eq in H by done.
      assert (sent' = sent) as -> by congruence.
      split; [done|]. split; [done|]. split; [done|].
      by exists id, o. }
  destruct r as [machineId email type amount|content amount|pass orderId
                |pass orderId]; cbn [handle].
  - destruct (ToBoolean machineId && ToBoolean email && ToBoolean type
              && ToBoolean amount) eqn:Hp.
    + rewrite (create_order_saves _ _ _ _ _ Hp). by intros [= <-].
    + rewrite (create_order_missing _ _ _ _ _ Hp). by intros [= <-].
  - rewrite webhook_table.
    destruct content as [| | | |s|]; try by intros [= <-].
    destruct (match_ s orderCode) as [id|]; [|by intros [= <-]].
    destruct (stored w id) as [o|] eqn:Ho; [|by intros [= <-]].
    destruct (strictEqStr (prop o "status") "COMPLETED") eqn:Hs;
      [by intros [= <-]|].
    destruct (lt (parseFloat amount) (parseFloat (prop o "amount")));
      [by intros [= <-]|].
    apply Hful; [done|by apply not_completed_strictEq|].
    intros e w1. by eexists.
  - rewrite approve_table.
    destruct (decide (pass = Some (ADMIN_PASS w))) as [Hp|Hp]; [|by intros [= <-]].
    destruct (stored w (ToString orderId)) as [o|] eqn:Ho; [|by intros [= <-]].
    destruct (strictEqStr (prop o "status") "COMPLETED") eqn:Hs;
      [by intros [= <-]|].
    apply Hful; [done|by apply not_completed_strictEq|].
    intros e w1. by eexists.
  - rewrite delete_table.
    destruct (decide (pass = Some (ADMIN_PASS w))) as [Hp|Hp]; [|by intros [= <-]].
    by destruct (stored w orderId); intros [= <-].
Qed.

End Outcomes.

Lemma fulfilment_request_frame_witness :
  let w' := (handle (ReportPayment (Str "CK TT1234") (Num (ofZ 200000)))
               demoPending).2 in
  (∀ id, stored w' id = stored demoPending id)
  ∨ (∃ id o o',
       stored demoPending id = Some o ∧ ¬ isCompleted o
       ∧ stored w' id = Some o' ∧ isCompleted o'
       ∧ is_Some (o' !! "licenseKey")
       ∧ (∀ k, ¬ setByCompletion k → o' !! k = o !! k)
       ∧ ∀ id', id' ≠ id → stored w' id' = stored demoPending id').
Proof.
  exact (fulfilment_request_frame
           (ReportPayment (Str "CK TT1234") (Num (ofZ 200000))) demoPending
           eq_refl).
Defined.

Lemma no_key_no_fulfilment_witness :
  (webhook_sepay (Str "CK TT1234") (Num (ofZ 200000)) demoNoKey).1
  = Return {| status := 500;
              json := {[ "error" := Str "Internal Server Error" ]} |}.
Proof.
  refine (proj1 (proj2 (no_key_no_fulfilment demoNoKey eq_refl))
            "CK TT1234" (Num (ofZ 200000)) "TT1234" (orderOf demoNoKey) _ _ _ _).
  - vm_compute. reflexivity.
  - apply stored_orderOf. vm_compute. reflexivity.
  - vm_compute. discriminate.
  - vm_compute. reflexivity.
Defined.

Lemma non_string_machineId_stuck_witness :
  stored (handle (ReportPayment (Str "CK TT1234") (Num (ofZ 200000)))
            demoNumericId).2 "TT1234"
  = Some (orderOf demoNumericId).
Proof.
  refine (proj1 (non_string_machineId_stuck demoNumericId "TT1234"
                   (orderOf demoNumericId) _ _)
            (ReportPayment (Str "CK TT1234") (Num (ofZ 200000))) eq_refl).
  - apply stored_orderOf. vm_compute. reflexivity.
  - intros s. vm_compute. discriminate.
Defined.

Lemma emailSent_flag_witness :
  (false = false ↔ notifierFails demoOffline).
Proof.
  refine (proj1 (emailSent_flag (ReportPayment (Str "CK TT1234") (Num (ofZ 200000)))
                   demoOffline partialSuccess false _ _)).
  - vm_compute. reflexivity.
  - vm_compute. reflexivity.
Defined.

(** ** From the creation of an order to its completion *)

Section OrderId.

Lemma isDigit_pretty_N_char (x : N) : isDigit (pretty_N_char x) = true.
Proof.
  destruct x as [|p]; [done|].
  do 4 (destruct p as [p|p|]; try done).
Qed.

(** A number from 1000 to 9999 is written with four digits. *)
Lemma pretty_four_digits n :
  1000 ≤ n ≤ 9999 →
  ∃ a b c d, pretty n = String a (String b (String c (String d "")))
    ∧ isDigit a = true ∧ isDigit b = true ∧ isDigit c = true ∧ isDigit d = true.
Proof.
  intros Hn. destruct n as [|p|p]; try lia.
  change (pretty (Z.pos p)) with (pretty (N.pos p)).
  unfold pretty, pretty_N. rewrite decide_False by done.
  set (x := N.pos p). assert (1000 ≤ x ≤ 9999)%N as Hx by lia. clearbody x.
  rewrite pretty_N_go_step by lia.
  rewrite pretty_N_go_step by (zify; Z.to_euclidean_division_equations; lia).
  rewrite pretty_N_go_step by (zify; Z.to_euclidean_division_equations; lia).
  rewrite pretty_N_go_step by (zify; Z.to_euclidean_division_equations; lia).
  replace (x / 10 / 10 / 10 / 10)%N with 0%N
    by (zify; Z.to_euclidean_division_equations; lia).
  rewrite pretty_N_go_0. eexists _, _, _, _. split; [done|].
  by rewrite !isDigit_pretty_N_char.
Qed.

Lemma search_skip p a c s :
  accepts a c = false → search (a :: p) (String c s) = search (a :: p) s.
Proof. intros H. cbn [search matchHere]. by rewrite H. Qed.

Lemma search_here p s m : matchHere p s = Some m → search p s = Some m.
Proof. intros H. destruct s; simpl in *; by rewrite H. Qed.

Lemma match_after_prefix pre s :
  noCapitalT pre = true →
  match_ (pre +:+ s) orderCode = match_ s orderCode.
Proof.
  unfold match_.
  change (atoms orderCode) with [Lit "T"; Lit "T"; Digit; Digit; Digit; Digit].
  induction pre as [|c pre IH]; [done|].
  cbn [noCapitalT]. intros [Hc Hpre]%andb_true_iff.
  rewrite str_app_cons, search_skip; [by apply IH|].
  cbn [accepts]. rewrite Ascii.eqb_sym. by apply negb_true_iff.
Qed.

Lemma match_order_code orderId post :
  isOrderCode orderId → match_ (orderId +:+ post) orderCode = Some orderId.
Proof.
  intros Hcode. apply search_here, matchHere_orderCode. eauto.
Qed.

Lemma isOrderCode_generated n :
  1000 ≤ n ≤ 9999 → isOrderCode ("TT" +:+ pretty n).
Proof.
  intros Hn.
  destruct (pretty_four_digits n Hn) as (a & b & c & d & Hp & Ha & Hb & Hc & Hd).
  exists a, b, c, d. rewrite Hp. done.
Qed.

Lemma match_generated n pre post :
  1000 ≤ n ≤ 9999 → noCapitalT pre = true →
  match_ (pre +:+ ("TT" +:+ pretty n) +:+ post) orderCode = Some ("TT" +:+ pretty n).
Proof.
  intros Hn Hpre. rewrite (match_after_prefix _ _ Hpre).
  by apply match_order_code, isOrderCode_generated.
Qed.

(** X11.  The order id that order creation hands out is the one the
    webhook reads from the transfer content: for a random number from
    1000 to 9999, the id TT followed by that number is an order code, and
    the webhook's regular expression finds exactly this id in any content
    made of a text without a capital T, the id, and any text after it. *)
Theorem order_id_round_trip n pre post :
  1000 ≤ n ≤ 9999 → noCapitalT pre = true →
  let orderId := "TT" +:+ pretty n in
  isOrderCode orderId
  ∧ match_ (pre +:+ orderId +:+ post) orderCode = Some orderId.
Proof.
  intros Hn Hpre orderId. split.
  - by apply isOrderCode_generated.
  - by apply match_generated.
Qed.

End OrderId.

Lemma order_id_round_trip_witness :
  match_ ("CK " +:+ ("TT" +:+ pretty 1234) +:+ " thanh toan") orderCode
  = Some ("TT" +:+ pretty 1234).
Proof.
  refine (proj2 (order_id_round_trip 1234 "CK " " thanh toan" _ _)).
  - lia.
  - reflexivity.
Defined.

Section Composition.

Lemma lt_irrefl x : lt x x = false.
Proof.
  unfold lt, SFltb. destruct x as [[]|[]| |[] m e]; simpl; try done;
    by rewrite Z.compare_refl, Pos.compare_cont_refl.
Qed.

Lemma lt_NaN_r x y : isNaN y = true → lt x y = false.
Proof. destruct y; try done. intros _. by destruct x as [[]|[]| |[] ? ?]. Qed.

Lemma prop_pendingOrder machineId email type amount ts :
  let o := pendingOrder machineId email type amount ts in
  prop o "machineId" = machineId ∧ prop o "email" = email
  ∧ prop o "type" = type ∧ prop o "amount" = amount
  ∧ o !! "status" = Some (Str "PENDING")
  ∧ o !! "createdAt" = Some (Str ts).
Proof.
  unfold prop, pendingOrder. repeat split;
    repeat (first [rewrite lookup_insert_eq | rewrite lookup_insert_ne by done]);
    done.
Qed.

(** X12.  From creation to completion.  An order created with a string
    for the machine id and all four fields present, on a server with a
    private key, is completed by a webhook whose content holds the id
    that the creation handed out (after a text without a capital T) and
    whose amount is not less than the amount of the order; paying the
    very amount value of the order always suffices.  The answer is
    success, the stored order is then completed and carries the license
    key generated for the machine id and type of the request, and this
    key is the one sent to the e-mail address of the request.  Between
    the two requests everything but the orders file may change.  The
    fields of the request are values that the orders file keeps as they
    are. *)
Theorem create_then_pay machineId email type amount w key pre post :
  ToBoolean (Str machineId) && ToBoolean email && ToBoolean type && ToBoolean amount
  = true →
  isScalarJSON email && isScalarJSON type && isScalarJSON amount = true →
  1000 ≤ random w ≤ 9999 → noCapitalT pre = true →
  let orderId := "TT" +:+ pretty (random w) in
  let w1 := (create_order (Str machineId) email type amount w).2 in
  ∀ w2 paid,
    file w2 = file w1 → privateKey w2 = Some key →
    lt (parseFloat paid) (parseFloat amount) = false →
    let licenseKey := issued w2 (Str machineId) type in
    let r := webhook_sepay (Str (pre +:+ orderId +:+ post)) paid w2 in
    lt (parseFloat amount) (parseFloat amount) = false
    ∧ ∃ sent o' db',
        r.1 = Return {| status := 200;
                        json := <["success" := Bool true]>
                                  {[ "emailSent" := Bool sent ]} |}
        ∧ stored r.2 orderId = Some o'
        ∧ isCompleted o' ∧ o' !! "licenseKey" = Some (Str licenseKey)
        ∧ trace r.2 = trace w2 ++ [Generate (Str machineId) type; WriteFile db';
                                   SendEmail email licenseKey orderId].
Proof.
  intros Hp _ Hn Hpre orderId w1 w2 paid Hf Hk Hlt licenseKey r.
  split; [apply lt_irrefl|].
  set (o := pendingOrder (Str machineId) email type amount (clockISO w)).
  destruct (prop_pendingOrder (Str machineId) email type amount (clockISO w))
    as (Hmid & Hemail & Htype & Hamount & Hstatus & _).
  fold o in Hmid, Hemail, Htype, Hamount, Hstatus.
  assert (stored w2 orderId = Some o) as Ho.
  { rewrite (stored_eq_file w1) by done. unfold w1.
    rewrite (create_order_saves _ _ _ _ _ Hp). cbn [snd].
    by rewrite stored_setFile, lookup_insert_eq. }
  assert (¬ isCompleted o) as Hc by (unfold isCompleted; congruence).
  destruct (webhook_fulfils (pre +:+ orderId +:+ post) paid w2 orderId o key machineId)
    as [sent Hrun]; [by apply match_generated|done|done|by rewrite Hamount|done|done|].
  subst r. rewrite Hrun. cbn [fst snd].
  eexists sent, _, _. split; [done|].
  split; [by rewrite stored_fulfilled, lookup_insert_eq|].
  split; [apply completedOrder_status|].
  split; [by rewrite completedOrder_licenseKey, Hmid, Htype|].
  rewrite trace_fulfilled, Hmid, Htype, Hemail. done.
Qed.

(** X13.  A webhook that is delivered again has no further effect.  The
    first delivery for a stored, not completed, sufficiently paid order
    (private key configured, machine id a string) generates one license,
    writes the file once and sends one e-mail.  After it, as long as the
    orders file is not changed, the order carries that license key, every
    further delivery with the same content, whatever its amount, is
    answered "Order already completed" with success, and an admin
    approval of the order is answered "Order already completed" without
    success; neither changes anything. *)
Theorem webhook_replay content amount w orderId o key id :
  match_ content orderCode = Some orderId →
  stored w orderId = Some o → ¬ isCompleted o →
  lt (parseFloat amount) (parseFloat (prop o "amount")) = false →
  privateKey w = Some key → prop o "machineId" = Str id →
  let w1 := (webhook_sepay (Str content) amount w).2 in
  let licenseKey := issued w (Str id) (prop o "type") in
  (∃ db', trace w1 = trace w ++ [Generate (Str id) (prop o "type"); WriteFile db';
                                 SendEmail (prop o "email") licenseKey orderId])
  ∧ ∀ w2, file w2 = file w1 →
      (∃ o', stored w2 orderId = Some o'
         ∧ o' !! "licenseKey" = Some (Str licenseKey))
      ∧ (∀ amount2,
           webhook_sepay (Str content) amount2 w2
           = (Return (answer 200 true "Order already completed"), w2))
      ∧ (∀ v, ToString v = orderId →
           api_approve (Some (ADMIN_PASS w2)) v w2
           = (Return (answer 200 false "Order already completed"), w2)).
Proof.
  intros Hm Ho Hc Hlt Hk Hid w1 licenseKey.
  destruct (webhook_fulfils _ _ _ _ _ _ _ Hm Ho Hc Hlt Hk Hid) as [sent Hrun].
  subst w1. rewrite Hrun. cbn [snd]. split.
  { eexists. by rewrite trace_fulfilled, Hid. }
  intros w2 Hf.
  set (o' := completedOrder o licenseKey (clockISO w)).
  assert (stored w2 orderId = Some o') as Ho'.
  { rewrite (stored_eq_file (fulfilled w (dbOf w) orderId o)) by done.
    rewrite stored_fulfilled, lookup_insert_eq, Hid. done. }
  assert (strictEqStr (prop o' "status") "COMPLETED" = true) as Hs
    by apply isCompleted_strictEq, completedOrder_status.
  split; [|split].
  - exists o'. split; [done|apply completedOrder_licenseKey].
  - intros amount2. by rewrite webhook_table, Hm, Ho', Hs.
  - intros v Hv. by rewrite approve_table, decide_True, Hv, Ho', Hs.
Qed.

(** X14.  The admin approval of a stored order that is not completed
    does what a webhook with a sufficient amount does: both leave the
    same world (orders file and calls made).  They also give the same
    answer when the webhook answers 200; when the license cannot be
    generated the webhook answers 500 and the approval answers 500
    "Internal Error".  The approval looks at no amount. *)
Theorem approve_as_payment orderId w o sufficient :
  isOrderCode orderId → stored w orderId = Some o → ¬ isCompleted o →
  lt (parseFloat sufficient) (parseFloat (prop o "amount")) = false →
  let a := api_approve (Some (ADMIN_PASS w)) (Str orderId) w in
  let p := webhook_sepay (Str orderId) sufficient w in
  a.2 = p.2
  ∧ (statusOf p.1 = Some 200 → a.1 = p.1)
  ∧ (statusOf p.1 = Some 500 → a.1 = Return (answer 500 false "Internal Error")).
Proof.
  intros Hcode Ho Hc Hlt a p. subst a p.
  assert (match_ orderId orderCode = Some orderId) as Hm.
  { rewrite <- (str_app_nil_r orderId) at 1. by apply match_order_code. }
  rewrite webhook_table, Hm, Ho, Hlt.
  rewrite approve_table, decide_True by done. cbn [ToString]. rewrite Ho.
  apply not_completed_strictEq in Hc as ->.
  destruct (try_fulfilment_cases orderId o w internalError Ho)
    as [[Hg [e ->]]|(key & s & sent & Hk & Hid & _)].
  - destruct (try_fulfilment_cases orderId o w internalErrorAdmin Ho)
      as [[_ [e' ->]]|(key & s & sent & Hk & Hid & _)].
    + done.
    + destruct Hg as [Hg|Hg]; [congruence|by destruct (Hg s)].
  - destruct (fulfilment_run orderId o w (dbOf w) key s) as (sent' & Hrun & _);
      [by apply (stored_file_dbOf w orderId o)|done|done|done|].
    rewrite (try_return _ internalError _ _ _ Hrun).
    rewrite (try_return _ internalErrorAdmin _ _ _ Hrun). done.
Qed.


End Composition.

Lemma create_then_pay_witness :
  let r := webhook_sepay (Str ("CK " +:+ ("TT" +:+ pretty (random demoWorld)) +:+ ""))
             (Num (ofZ 200000)) demoPending in
  let licenseKey := issued demoPending (Str "abcdefgh1234") (Str "M") in
  ∃ sent o' db',
    r.1 = Return {| status := 200;
                    json := <["success" := Bool true]>
                              {[ "emailSent" := Bool sent ]} |}
    ∧ stored r.2 ("TT" +:+ pretty (random demoWorld)) = Some o'
    ∧ isCompleted o' ∧ o' !! "licenseKey" = Some (Str licenseKey)
    ∧ trace r.2 = trace demoPending
                  ++ [Generate (Str "abcdefgh1234") (Str "M"); WriteFile db';
                      SendEmail (Str "buyer@example.com") licenseKey
                        ("TT" +:+ pretty (random demoWorld))].
Proof.
  refine (proj2 (create_then_pay "abcdefgh1234" (Str "buyer@example.com") (Str "M")
                   (Num (ofZ 200000)) demoWorld demoKey "CK " "" _ _ _ _
                   demoPending (Num (ofZ 200000)) _ _ _)).
  - vm_compute. reflexivity.
  - vm_compute. reflexivity.
  - vm_compute. split; discriminate.
  - reflexivity.
  - reflexivity.
  - vm_compute. reflexivity.
  - vm_compute. reflexivity.
Defined.

Lemma webhook_replay_witness :
  webhook_sepay (Str "CK TT1234") (Str "1") demoCompleted
  = (Return (answer 200 true "Order already completed"), demoCompleted).
Proof.
  refine (proj1 (proj2 (proj2 (webhook_replay "CK TT1234" (Num (ofZ 200000))
                   demoPending "TT1234" (orderOf demoPending) demoKey
                   "abcdefgh1234" _ _ _ _ _ _) demoCompleted _)) (Str "1")).
  - vm_compute. reflexivity.
  - apply stored_orderOf. vm_compute. reflexivity.
  - vm_compute. discriminate.
  - vm_compute. reflexivity.
  - vm_compute. reflexivity.
  - vm_compute. reflexivity.
  - reflexivity.
Defined.

Lemma approve_as_payment_witness :
  (api_approve (Some (ADMIN_PASS demoPending)) (Str "TT1234") demoPending).2
  = (webhook_sepay (Str "TT1234") (Num (ofZ 200000)) demoPending).2.
Proof.
  refine (proj1 (approve_as_payment "TT1234" demoPending (orderOf demoPending)
                   (Num (ofZ 200000)) _ _ _ _)).
  - by exists "1"%char, "2"%char, "3"%char, "4"%char.
  - apply stored_orderOf. vm_compute. reflexivity.
  - vm_compute. discriminate.
  - vm_compute. reflexivity.
Defined.


(** ** The machine hash and the term of a license *)

Section MachineHash.

Lemma upperChar_idemp c : upperChar (upperChar c) = upperChar c.
Proof. by destruct c as [[] [] [] [] [] [] [] []]. Qed.

Lemma toUpperCase_idemp s : toUpperCase (toUpperCase s) = toUpperCase s.
Proof.
  induction s as [|c s IH]; [done|]. simpl. by rewrite upperChar_idemp, IH.
Qed.

Lemma isASCII_upperChar c :
  (nat_of_ascii c <? 128)%nat = true → (nat_of_ascii (upperChar c) <? 128)%nat = true.
Proof. by destruct c as [[] [] [] [] [] [] [] []]. Qed.

Lemma isASCII_toUpperCase s : isASCII s = true → isASCII (toUpperCase s) = true.
Proof.
  induction s as [|c s IH]; [done|]. cbn [isASCII toUpperCase].
  intros [Hc Hs]%andb_true_iff. by rewrite isASCII_upperChar, IH.
Qed.

Lemma substring0_toUpperCase n s :
  substring0 n (toUpperCase s) = toUpperCase (substring0 n s).
Proof.
  unfold substring0. revert s. induction n as [|n IH]; intros [|c s]; simpl;
    try done. by rewrite IH.
Qed.

Lemma substring0_app n s rest :
  String.length s = n → substring0 n (s +:+ rest) = s.
Proof.
  unfold substring0. revert s. induction n as [|n IH]; intros [|c s] Hl;
    simpl in *; try done.
  - by destruct rest.
  - f_equal. apply IH. lia.
Qed.

Lemma generateLicense_result id type w :
  (generateLicense (Str id) type w).1
  = match privateKey w with
    | Some key =>
        let now := clock w in
        let expiry :=
          if strictEqStr type "M" then yyyymmdd (setMonth now (getMonth now + 1))
          else if strictEqStr type "Y"
               then yyyymmdd (setFullYear now (getFullYear now + 1))
          else if strictEqStr type "P" then "FOREVER"
          else yyyymmdd now in
        let payload := ToString type +:+ "-" +:+ toUpperCase (substring0 8 id)
                       +:+ "-" +:+ expiry in
        Return (payload +:+ "-" +:+ sign key payload)
    | None => Throw (Error "Private Key not configured!")
    end.
Proof.
  destruct (privateKey w) as [key|] eqn:Hk.
  - by rewrite (generateLicense_key w key Hk).
  - by rewrite (generateLicense_no_key _ _ _ Hk).
Qed.

(** X16.  The license depends on a machine id of ASCII characters only
    through its first eight characters, and not on their case: two such
    machine ids whose first eight characters agree up to case get the
    same license (for the same type, key and date).  In particular
    whatever follows the eighth character is ignored, and a machine id
    and its upper-case form get the same license. *)
Theorem generateLicense_machineHash type w :
  (∀ id1 id2,
     isASCII id1 = true → isASCII id2 = true →
     toUpperCase (substring0 8 id1) = toUpperCase (substring0 8 id2) →
     (generateLicense (Str id1) type w).1 = (generateLicense (Str id2) type w).1)
  ∧ (∀ id rest,
       isASCII (id +:+ rest) = true → String.length id = 8%nat →
       (generateLicense (Str (id +:+ rest)) type w).1
       = (generateLicense (Str id) type w).1)
  ∧ (∀ id,
       isASCII id = true →
       isASCII (toUpperCase id) = true
       ∧ (generateLicense (Str (toUpperCase id)) type w).1
         = (generateLicense (Str id) type w).1).
Proof.
  assert (∀ id1 id2,
     toUpperCase (substring0 8 id1) = toUpperCase (substring0 8 id2) →
     (generateLicense (Str id1) type w).1 = (generateLicense (Str id2) type w).1)
    as H.
  { intros id1 id2 Hh. rewrite !generateLicense_result.
    destruct (privateKey w); [|done]. cbn zeta. by rewrite Hh. }
  split; [intros id1 id2 _ _; apply H|]. split.
  - intros id rest _ Hl. apply H.
    rewrite (substring0_app 8 id rest Hl).
    by rewrite (substring0_short 8 id) by lia.
  - intros id Ha. split; [by apply isASCII_toUpperCase|]. apply H.
    by rewrite substring0_toUpperCase, toUpperCase_idemp.
Qed.

End MachineHash.

Section Duration.

Ltac euclid := Z.to_euclidean_division_equations; lia.

(** A day number is recovered from its civil date. *)
Lemma daysFromCivil_civilFromDays z :
  let '(y, m, d) := civilFromDays z in daysFromCivil y m d = z.
Proof.
  unfold civilFromDays, daysFromCivil.
  set (z' := z + 719468). set (era := z' / 146097).
  set (doe := z' - era * 146097).
  assert (0 ≤ doe < 146097) as Hdoe by (unfold doe, era; euclid).
  assert (z = era * 146097 + doe - 719468) as Hz by (unfold doe, z'; lia).
  clearbody doe era. clear z'.
  set (yoe := (doe - doe / 1460 + doe / 36524 - doe / 146096) / 365).
  set (doy := doe - (365 * yoe + yoe / 4 - yoe / 100)).
  assert (0 ≤ yoe < 400 ∧ 0 ≤ doy
          ∧ doy < (if isLeapYear (yoe + 1) then 366 else 365))
    as (Hyoe & Hdoy & Hleap).
  { unfold doy.
    destruct (isLeapYear_cases (yoe + 1)) as [(-> & H4 & H100)|(-> & H)];
      unfold yoe in *; euclid. }
  assert (doe = yoe * 365 + yoe / 4 - yoe / 100 + doy) as Hdoe'
    by (unfold doy; lia).
  clearbody doy yoe.
  set (mp := (5 * doy + 2) / 153).
  assert (0 ≤ mp ≤ 11) as Hr
    by (unfold mp; destruct (isLeapYear (yoe + 1)); euclid).
  set (d := doy - (153 * mp + 2) / 5 + 1).
  set (m := if mp <? 10 then mp + 3 else mp - 9).
  assert ((if m <=? 2 then yoe + era * 400 + (if m <=? 2 then 1 else 0) - 1
           else yoe + era * 400 + (if m <=? 2 then 1 else 0))
          = yoe + era * 400) as ->
    by (destruct (m <=? 2); lia).
  assert ((if 2 <? m then m - 3 else m + 9) = mp) as ->
    by (unfold m; repeat case_match; lia).
  replace ((yoe + era * 400) / 400) with era by euclid.
  replace (yoe + era * 400 - era * 400) with yoe by lia.
  unfold d. lia.
Qed.

Lemma Day_civilDate now :
  daysFromCivil (getFullYear now) (getMonth now + 1) (getDate now)
  = Day (localTime now).
Proof.
  pose proof (daysFromCivil_civilFromDays (Day (localTime now))) as H.
  rewrite <- civilDate_civil in H. exact H.
Qed.

Lemma daysFromCivil_nextYear y m :
  1 ≤ m ≤ 12 →
  daysFromCivil (y + 1) m 1 - daysFromCivil y m 1
  = if isLeapYear (if m <=? 2 then y else y + 1) then 366 else 365.
Proof.
  intros Hm. unfold daysFromCivil.
  destruct (Z.leb_spec m 2).
  - destruct (isLeapYear_cases y) as [(-> & H4 & H100)|(-> & H')];
      repeat case_match; euclid.
  - destruct (isLeapYear_cases (y + 1)) as [(-> & H4 & H100)|(-> & H')];
      repeat case_match; euclid.
Qed.

Lemma TimeWithinDay_MakeDate day t :
  TimeWithinDay (MakeDate day (TimeWithinDay t)) = TimeWithinDay t.
Proof. unfold MakeDate, TimeWithinDay, msPerDay. euclid. Qed.


End Duration.

(** ** The private key text at start-up *)

Section StartUp.

Lemma replace_escaped s :
  replaceEscapedNewlines (String "\" (String "n" s))
  = String "010" (replaceEscapedNewlines s).
Proof. reflexivity. Qed.

Lemma replace_other c s :
  c ≠ "\"%char ∨ (∀ s', s ≠ String "n" s') →
  replaceEscapedNewlines (String c s) = String c (replaceEscapedNewlines s).
Proof.
  intros H. destruct (ascii_dec c "\") as [->|Hc].
  - destruct H as [H|H]; [done|].
    destruct s as [|c' s']; [done|].
    destruct (ascii_dec c' "n") as [->|Hc']; [by destruct (H s')|].
    destruct c' as [[] [] [] [] [] [] [] []]; try reflexivity. done.
  - destruct c as [[] [] [] [] [] [] [] []]; try reflexivity. done.
Qed.

Lemma escaped_nil : ¬ hasEscapedNewline "".
Proof. intros ([|c pre] & post & H); discriminate. Qed.

Lemma escaped_cons c s :
  hasEscapedNewline (String c s)
  ↔ (c = "\"%char ∧ ∃ s', s = String "n" s') ∨ hasEscapedNewline s.
Proof.
  split.
  - intros ([|c' pre] & post & H).
    + left. injection H as -> ->. split; [done|]. by eexists.
    + right. rewrite str_app_cons in H. injection H as -> ->. by exists pre, post.
  - intros [[-> [s' ->]]|(pre & post & ->)].
    + by exists "", s'.
    + by exists (String c pre), post.
Qed.

(** The first character is kept, unless an escaped line break starts
    there. *)
Lemma replace_head s :
  (∃ s', s = String "\" (String "n" s'))
  ∨ match s with
    | String c s' => replaceEscapedNewlines s = String c (replaceEscapedNewlines s')
    | EmptyString => replaceEscapedNewlines s = ""
    end.
Proof.
  destruct s as [|c s]; [by right|].
  destruct (ascii_dec c "\") as [->|Hc]; [|right; apply replace_other; by left].
  destruct s as [|c' s]; [by right|].
  destruct (ascii_dec c' "n") as [->|Hc']; [left; by eexists|].
  right. apply replace_other. right. intros s' [= ? ?]. done.
Qed.

Lemma replace_no_escaped_upto (n : nat) s :
  (String.length s ≤ n)%nat →
  ¬ hasEscapedNewline (replaceEscapedNewlines s)
  ∧ (String.length (replaceEscapedNewlines s) ≤ String.length s)%nat.
Proof.
  revert s. induction n as [|n IH]; intros s Hl.
  { destruct s; [|simpl in Hl; lia]. split; [apply escaped_nil|done]. }
  destruct (replace_head s) as [[s' ->]|H].
  - rewrite replace_escaped. simpl in Hl.
    destruct (IH s') as [IH1 IH2]; [lia|]. split; [|simpl; lia].
    rewrite escaped_cons. intros [[[=] _]|H]. done.
  - destruct s as [|c s]; [rewrite H; split; [apply escaped_nil|done]|].
    rewrite H. simpl in Hl. destruct (IH s) as [IH1 IH2]; [lia|].
    split; [|simpl; lia].
    rewrite escaped_cons. intros [[-> [t Ht]]|H']; [|done].
    destruct (replace_head s) as [[s' ->]|Hs].
    + rewrite replace_escaped in Ht. discriminate.
    + destruct s as [|c' s']; [by rewrite Hs in Ht|].
      rewrite Hs in Ht. injection Ht as -> _.
      rewrite replace_escaped in H. discriminate.
Qed.

Lemma replace_identity s :
  ¬ hasEscapedNewline s → replaceEscapedNewlines s = s.
Proof.
  induction s as [|c s IH]; [done|]. rewrite escaped_cons. intros H.
  rewrite replace_other.
  - f_equal. apply IH. tauto.
  - destruct (ascii_dec c "\") as [->|]; [|by left].
    right. intros s' ->. apply H. left. split; [done|]. by eexists.
Qed.

Lemma backslash_cons c s :
  ¬ hasBackslash (String c s) → c ≠ "\"%char ∧ ¬ hasBackslash s.
Proof.
  intros H. split.
  - intros ->. apply H. by exists "", s.
  - intros (pre & post & ->). apply H. by exists (String c pre), post.
Qed.

(** X18.  The replacement of escaped line breaks in the private key
    taken from the environment.  The result holds no backslash followed
    by n any more, so that replacing again changes nothing; a text
    without such a pair (a key with real line breaks) is left as it is;
    the result is never longer than the text; a pair that follows a text
    without backslashes becomes one line feed.  A key text taken at
    start-up either comes from a non-empty variable [PRIVATE_KEY], with
    the replacement done, or, when that variable is unset or empty, is
    the content of the key file as it is. *)
Theorem replaceEscapedNewlines_spec s :
  ¬ hasEscapedNewline (replaceEscapedNewlines s)
  ∧ replaceEscapedNewlines (replaceEscapedNewlines s) = replaceEscapedNewlines s
  ∧ (¬ hasEscapedNewline s → replaceEscapedNewlines s = s)
  ∧ (String.length (replaceEscapedNewlines s) ≤ String.length s)%nat
  ∧ (∀ a b,
       ¬ hasBackslash a →
       replaceEscapedNewlines (a +:+ "\n" +:+ b)
       = a +:+ String "010" (replaceEscapedNewlines b))
  ∧ (∀ env pem text,
       privateKeyText env pem = Some text →
       (∃ k, env !! "PRIVATE_KEY" = Some k ∧ k ≠ ""
          ∧ text = replaceEscapedNewlines k ∧ ¬ hasEscapedNewline text)
       ∨ ((env !! "PRIVATE_KEY" = None ∨ env !! "PRIVATE_KEY" = Some "")
          ∧ pem = Some text)).
Proof.
  destruct (replace_no_escaped_upto (String.length s) s) as [H1 H2]; [done|].
  split; [done|]. split; [by apply replace_identity|].
  split; [apply replace_identity|]. split; [done|]. split.
  - intros a b. induction a as [|c a IH]; intros Ha.
    + rewrite str_app_nil_l. apply replace_escaped.
    + apply backslash_cons in Ha as [Hc Ha].
      rewrite !(str_app_cons c a), replace_other by by left.
      by rewrite IH.
  - intros env pem text. unfold privateKeyText.
    destruct (env !! "PRIVATE_KEY") as [[|c k]|] eqn:He.
    + intros ->. right. split; [by right|done].
    + intros [= <-]. left. exists (String c k). split; [done|]. split; [done|].
      split; [done|].
      by destruct (replace_no_escaped_upto (String.length (String c k))
                     (String c k)).
    + intros ->. right. split; [by left|done].
Qed.

End StartUp.

(** ** The shape of the stored orders *)

Section WellFormed.

Lemma pendingOrder_ok machineId email type amount ts :
  ToBoolean machineId && ToBoolean email && ToBoolean type && ToBoolean amount
  = true →
  storedOrderOk (pendingOrder machineId email type amount ts).
Proof.
  intros (((H1 & H2)%andb_true_iff & H3)%andb_true_iff & H4)%andb_true_iff.
  destruct (prop_pendingOrder machineId email type amount ts)
    as (E1 & E2 & E3 & E4 & Hs & Hc).
  unfold storedOrderOk. rewrite E1, E2, E3, E4.
  repeat split; try done; [by eexists|by left].
Qed.

Lemma completedOrder_ok o key ts :
  storedOrderOk o → storedOrderOk (completedOrder o key ts).
Proof.
  intros (H1 & H2 & H3 & H4 & H5 & H6).
  assert (∀ k, ¬ setByCompletion k →
            prop (completedOrder o key ts) k = prop o k) as Hprop
    by (intros k Hk; unfold prop; by rewrite completedOrder_other).
  unfold storedOrderOk.
  rewrite !Hprop by (unfold setByCompletion; intros [|[|]]; discriminate).
  rewrite completedOrder_other
    by (unfold setByCompletion; intros [|[|]]; discriminate).
  repeat split; try done. right. apply completedOrder_status.
Qed.

(** X19.  Every order in the store went through the presence check of
    order creation and is pending or completed: its machine id, e-mail
    address, type and amount are present (truthy), it carries its
    creation time, and its status is PENDING or COMPLETED.  This holds
    of a missing and of an empty orders file, every request whose fields
    the file keeps as they are keeps it true of all stored orders, and so
    does every change that leaves the orders file alone. *)
Theorem stored_orders_well_formed :
  let ok (w : World) := ∀ id o, stored w id = Some o → storedOrderOk o in
  (∀ w, initial w → ok w)
  ∧ (∀ r w, scalarRequest r → ok w → ok (handle r w).2)
  ∧ (∀ w w', file w' = file w → ok w → ok w').
Proof.
  intros ok. split; [|split]; cycle 1.
  { intros r w _ Hok id o.
    destruct (isFulfilmentRequest r) eqn:Hr.
    - destruct (fulfilment_request_world r w Hr)
        as [->|(id' & o' & Ho' & Hc & [[_ ->]|[_ ->]])].
      + apply Hok.
      + rewrite stored_record. apply Hok.
      + rewrite stored_fulfilled. destruct (decide (id' = id)) as [->|Hne].
        * rewrite lookup_insert_eq. intros [= <-].
          apply completedOrder_ok. by apply (Hok id).
        * rewrite lookup_insert_ne by done. apply Hok.
    - destruct r as [machineId email type amount|? ?|? ?|pass orderId];
        try done; cbn [handle].
      + destruct (ToBoolean machineId && ToBoolean email && ToBoolean type
                  && ToBoolean amount) eqn:Hp.
        * rewrite (create_order_saves _ _ _ _ _ Hp). cbn [snd].
          rewrite stored_setFile.
          destruct (decide ("TT" +:+ pretty (random w) = id)) as [->|Hne].
          -- rewrite lookup_insert_eq. intros [= <-]. by apply pendingOrder_ok.
          -- rewrite lookup_insert_ne by done. apply Hok.
        * rewrite (create_order_missing _ _ _ _ _ Hp). apply Hok.
      + rewrite delete_table.
        destruct (decide (pass = Some (ADMIN_PASS w))) as [Hp|Hp]; [|apply Hok].
        destruct (stored w orderId); [|apply Hok]. cbn [snd].
        rewrite stored_setFile. intros [_ H]%lookup_delete_Some.
        by apply (Hok id). }
  { intros w w' Hf Hok id o. rewrite (stored_eq_file w w') by done. apply Hok. }
  intros w [Hi|Hi] id o; unfold stored, dbOf; by rewrite Hi.
Qed.

End WellFormed.
